(** * Algebraic expressions: parser, renderer, evaluator, equivalence checker

    A shallow embedding of [src/algebra/base.ts].

    Conventions of the model.
    - A JavaScript [number] that holds an integer is a [Z]; arithmetic is
      exact (no rounding above 2^53, no negative zero). The code agrees with
      this up to [2^53] in absolute value; statements that depend on the
      digits or on the arithmetic of a number carry that bound as a
      hypothesis ([exactLeaves], [exactArith], [exactUnder]).
    - A JavaScript string is a [string] of code units below 256.
    - [throw new Error(msg)] is the [Err] case of [result]; one constructor of
      [Error] per message of the source.
    - The parser's cursor [pos] over the fixed token array is the suffix of
      tokens that starts at [pos].
    - The real-valued results of [getComputedValue] are exact rationals, with
      [None] for NaN. *)

From Stdlib Require Import ZArith List String Ascii Bool Lia QArith Qabs Qround.
Import ListNotations.

Local Open Scope string_scope.
Local Open Scope list_scope.
Local Open Scope Z_scope.

(** ** Abstract syntax *)

Inductive AlgExpr : Type :=
| Int (value : Z)
| Var (name : string)
| Add (arg1 arg2 : AlgExpr)
| Sub (arg1 arg2 : AlgExpr)
| Mul (arg1 arg2 : AlgExpr)
| Div (arg1 arg2 : AlgExpr)
| Neg (arg : AlgExpr).

Inductive Op : Type := Plus | Minus | Times | Slash.

Inductive Token : Type :=
| TNumber (value : Z)
| TVar (name : string)
| TOp (op : Op)
| TLParen
| TRParen.

(** ** Errors

    The source throws plain [Error] objects told apart by their message.
    [OutOfFuel] and [UndefinedValue] do not exist in the source: the first
    marks a loop of the model that ran out of its iteration bound, the second
    a read of a key that a [Map] does not hold. Both are proved unreachable
    below. *)

Inductive Error : Type :=
| UnexpectedCharacter (c : ascii)
| UnexpectedEndOfInput
| ExpectedClosingParenthesis
| UnexpectedTokensAfterExpression
| UnexpectedToken (t : Token)
| ExpressionIsNotANumber
| OutOfFuel
| UndefinedValue.

Inductive result (A : Type) : Type :=
| Ok (a : A)
| Err (e : Error).

Arguments Ok {A} a.
Arguments Err {A} e.

Definition bind {A B : Type} (m : result A) (k : A -> result B) : result B :=
  match m with
  | Ok a => k a
  | Err e => Err e
  end.

Notation "x <- m ;; k" := (bind m (fun x => k))
  (at level 61, m at next level, right associativity).
Notation "' p <- m ;; k" := (bind m (fun x => match x with p => k end))
  (at level 61, p pattern, m at next level, right associativity).

(** The failures the spec calls SyntaxError. *)
Definition isSyntaxError (e : Error) : bool :=
  match e with
  | UnexpectedCharacter _ | UnexpectedEndOfInput | ExpectedClosingParenthesis
  | UnexpectedTokensAfterExpression | UnexpectedToken _ => true
  | _ => false
  end.

(** ** Evaluator *)

Definition isNumber (expr : AlgExpr) : bool :=
  match expr with
  | Int _ => true
  | Neg (Int _) => true
  | _ => false
  end.

Definition getValue (expr : AlgExpr) : result Z :=
  match expr with
  | Neg (Int value) => Ok (- value)
  | Int value => Ok value
  | _ => Err ExpressionIsNotANumber
  end.

Definition standardizeNumber (n : Z) : AlgExpr :=
  if n <? 0 then Neg (Int (- n)) else Int n.

(** The branch shared by Add, Sub and Mul, after both children are
    evaluated: [mk] rebuilds the node, [f] is the operator of the switch. *)
Definition evaluateArith (mk : AlgExpr -> AlgExpr -> AlgExpr)
    (f : Z -> Z -> Z) (left right : AlgExpr) : result AlgExpr :=
  if isNumber left && isNumber right then
    l <- getValue left ;;
    r <- getValue right ;;
    Ok (standardizeNumber (f l r))
  else Ok (mk left right).

(** The Div branch. [%] is the truncated remainder; [/] is exact there
    because it is only taken when the remainder is zero. The conjunction
    short-circuits as in the source. *)
Definition evaluateDiv (left right : AlgExpr) : result AlgExpr :=
  if isNumber left && isNumber right then
    r <- getValue right ;;
    if negb (r =? 0) then
      l <- getValue left ;;
      if Z.rem l r =? 0 then Ok (standardizeNumber (Z.quot l r))
      else Ok (Div left right)
    else Ok (Div left right)
  else Ok (Div left right).

Fixpoint evaluateExpression (expression : AlgExpr) : result AlgExpr :=
  match expression with
  | Add arg1 arg2 =>
      left <- evaluateExpression arg1 ;;
      right <- evaluateExpression arg2 ;;
      evaluateArith Add Z.add left right
  | Sub arg1 arg2 =>
      left <- evaluateExpression arg1 ;;
      right <- evaluateExpression arg2 ;;
      evaluateArith Sub Z.sub left right
  | Mul arg1 arg2 =>
      left <- evaluateExpression arg1 ;;
      right <- evaluateExpression arg2 ;;
      evaluateArith Mul Z.mul left right
  | Div arg1 arg2 =>
      left <- evaluateExpression arg1 ;;
      right <- evaluateExpression arg2 ;;
      evaluateDiv left right
  | Neg arg =>
      argEval <- evaluateExpression arg ;;
      match argEval with
      | Neg a => Ok a
      | _ => Ok (Neg argEval)
      end
  | Int _ | Var _ => Ok expression
  end.

(** ** Renderer *)

(** [value.toString()] for an integer: decimal digits, most significant
    first, with a leading minus sign for a negative value. [toDigits] emits
    one digit per step; [fuel] bounds the number of digits. This is what the
    code prints up to [2^53] in absolute value; beyond it the code prints
    the shortest digits of the double, and exponent notation from [10^21]
    on. *)
Definition digitChar (d : Z) : ascii := ascii_of_nat (48 + Z.to_nat d).

Fixpoint toDigits (fuel : nat) (n : Z) (acc : list ascii) : list ascii :=
  match fuel with
  | O => acc
  | S fuel' =>
      let acc' := digitChar (n mod 10) :: acc in
      if n <? 10 then acc' else toDigits fuel' (n / 10) acc'
  end.

Definition digitsOf (n : Z) : list ascii :=
  toDigits (S (Z.to_nat (Z.log2 n))) n [].

Definition toString (value : Z) : string :=
  if value <? 0 then String "-"%char (string_of_list_ascii (digitsOf (- value)))
  else string_of_list_ascii (digitsOf value).

Fixpoint renderExpression (expression : AlgExpr) : string :=
  match expression with
  | Int value => toString value
  | Var name => name
  | Add arg1 arg2 =>
      "(" ++ renderExpression arg1 ++ " + " ++ renderExpression arg2 ++ ")"
  | Sub arg1 arg2 =>
      "(" ++ renderExpression arg1 ++ " - " ++ renderExpression arg2 ++ ")"
  | Mul arg1 arg2 =>
      "(" ++ renderExpression arg1 ++ " * " ++ renderExpression arg2 ++ ")"
  | Div arg1 arg2 =>
      "(" ++ renderExpression arg1 ++ " / " ++ renderExpression arg2 ++ ")"
  | Neg arg => "(-" ++ renderExpression arg ++ ")"
  end%string.

(** ** Tokenizer *)

(** The three regular expressions of the source, on code units below 256:
    [\s] (tab, line feed, vertical tab, form feed, carriage return, space,
    no-break space), [\d] and [[a-zA-Z]]. *)
Definition isSpace (c : ascii) : bool :=
  let n := nat_of_ascii c in
  ((9 <=? n) && (n <=? 13) || (n =? 32) || (n =? 160))%nat.

Definition isDigit (c : ascii) : bool :=
  let n := nat_of_ascii c in ((48 <=? n) && (n <=? 57))%nat.

Definition isLetter (c : ascii) : bool :=
  let n := nat_of_ascii c in
  ((97 <=? n) && (n <=? 122) || (65 <=? n) && (n <=? 90))%nat.

(** The inner loops [while (i < input.length && test(input[i]))]: the run
    that was collected and the input left after it. *)
Fixpoint scanWhile (test : ascii -> bool) (input : list ascii)
  : list ascii * list ascii :=
  match input with
  | c :: rest =>
      if test c then
        let '(run, rest') := scanWhile test rest in (c :: run, rest')
      else ([], input)
  | [] => ([], [])
  end.

Definition digitValue (c : ascii) : Z := Z.of_nat (nat_of_ascii c) - 48.

(** [parseInt] on a run of decimal digits; exact, as the code is for
    values up to [2^53]. *)
Definition parseInt (numStr : list ascii) : Z :=
  fold_left (fun acc c => 10 * acc + digitValue c) numStr 0.

Definition opOfChar (c : ascii) : option Op :=
  if Ascii.eqb c "+" then Some Plus
  else if Ascii.eqb c "-" then Some Minus
  else if Ascii.eqb c "*" then Some Times
  else if Ascii.eqb c "/" then Some Slash
  else None.

(** The outer [while (i < input.length)] loop; [input] is the text from
    index [i] on, [tokens] the array built so far. Every iteration takes one
    unit of [fuel]. *)
Fixpoint tokenizeLoop (fuel : nat) (input : list ascii) (tokens : list Token)
  : result (list Token) :=
  match input with
  | [] => Ok tokens
  | char :: rest =>
      match fuel with
      | O => Err OutOfFuel
      | S fuel' =>
          if isSpace char then tokenizeLoop fuel' rest tokens
          else if isDigit char then
            let '(numStr, rest') := scanWhile isDigit input in
            tokenizeLoop fuel' rest' (tokens ++ [TNumber (parseInt numStr)])
          else if isLetter char then
            let '(varName, rest') := scanWhile isLetter input in
            tokenizeLoop fuel' rest'
              (tokens ++ [TVar (string_of_list_ascii varName)])
          else
            match opOfChar char with
            | Some op => tokenizeLoop fuel' rest (tokens ++ [TOp op])
            | None =>
                if Ascii.eqb char "(" then
                  tokenizeLoop fuel' rest (tokens ++ [TLParen])
                else if Ascii.eqb char ")" then
                  tokenizeLoop fuel' rest (tokens ++ [TRParen])
                else Err (UnexpectedCharacter char)
            end
      end
  end.

Definition tokenize (input : string) : result (list Token) :=
  tokenizeLoop (String.length input) (list_ascii_of_string input) [].

(** ** Parser *)

Definition ParserOf (A : Type) : Type :=
  list Token -> result (A * list Token).

Section Loops.

(** The rule one level up in precedence, called for every operand. *)
Variable operand : ParserOf AlgExpr.

(** The [while] loop of [parseMulDiv], entered with [left] parsed. *)
Fixpoint mulDivLoop (fuel : nat) (left : AlgExpr) (tokens : list Token)
  : result (AlgExpr * list Token) :=
  match tokens with
  | TOp Times :: tokens' =>
      match fuel with
      | O => Err OutOfFuel
      | S fuel' =>
          '(right_, tokens'') <- operand tokens' ;;
          mulDivLoop fuel' (Mul left right_) tokens''
      end
  | TOp Slash :: tokens' =>
      match fuel with
      | O => Err OutOfFuel
      | S fuel' =>
          '(right_, tokens'') <- operand tokens' ;;
          mulDivLoop fuel' (Div left right_) tokens''
      end
  | _ => Ok (left, tokens)
  end.

(** The [while] loop of [parseAddSub]. *)
Fixpoint addSubLoop (fuel : nat) (left : AlgExpr) (tokens : list Token)
  : result (AlgExpr * list Token) :=
  match tokens with
  | TOp Plus :: tokens' =>
      match fuel with
      | O => Err OutOfFuel
      | S fuel' =>
          '(right_, tokens'') <- operand tokens' ;;
          addSubLoop fuel' (Add left right_) tokens''
      end
  | TOp Minus :: tokens' =>
      match fuel with
      | O => Err OutOfFuel
      | S fuel' =>
          '(right_, tokens'') <- operand tokens' ;;
          addSubLoop fuel' (Sub left right_) tokens''
      end
  | _ => Ok (left, tokens)
  end.

End Loops.

(** [parseMulDiv] and [parseAddSub] over a given [parsePrimary]. *)
Definition parseMulDivWith (primary : ParserOf AlgExpr) (fuel : nat)
  : ParserOf AlgExpr :=
  fun tokens =>
    '(left_, tokens') <- primary tokens ;;
    mulDivLoop primary fuel left_ tokens'.

Definition parseAddSubWith (primary : ParserOf AlgExpr) (fuel : nat)
  : ParserOf AlgExpr :=
  fun tokens =>
    '(left_, tokens') <- parseMulDivWith primary fuel tokens ;;
    addSubLoop (parseMulDivWith primary fuel) fuel left_ tokens'.

(** [fuel] bounds the depth of the recursion through [parsePrimary] and
    the number of iterations of each loop. *)
Fixpoint parsePrimary (fuel : nat) (tokens : list Token)
  : result (AlgExpr * list Token) :=
  match fuel with
  | O => Err OutOfFuel
  | S fuel' =>
      match tokens with
      | [] => Err UnexpectedEndOfInput
      | TOp Minus :: tokens' =>
          '(expr, tokens'') <- parsePrimary fuel' tokens' ;;
          Ok (Neg expr, tokens'')
      | TNumber value :: tokens' => Ok (Int value, tokens')
      | TVar name :: tokens' => Ok (Var name, tokens')
      | TLParen :: tokens' =>
          '(expr, tokens'') <- parseAddSubWith (parsePrimary fuel') fuel' tokens' ;;
          match tokens'' with
          | TRParen :: tokens''' => Ok (expr, tokens''')
          | _ => Err ExpectedClosingParenthesis
          end
      | token :: _ => Err (UnexpectedToken token)
      end
  end.

Definition parseMulDiv (fuel : nat) : ParserOf AlgExpr :=
  parseMulDivWith (parsePrimary fuel) fuel.

Definition parseAddSub (fuel : nat) : ParserOf AlgExpr :=
  parseAddSubWith (parsePrimary fuel) fuel.

(** [Parser.parse] *)
Definition parse (tokens : list Token) : result AlgExpr :=
  '(result, rest) <- parseAddSub (S (List.length tokens)) tokens ;;
  match rest with
  | [] => Ok result
  | _ :: _ => Err UnexpectedTokensAfterExpression
  end.

Definition parseExpression (expression : string) : result AlgExpr :=
  tokens <- tokenize expression ;;
  parse tokens.

(** ** Equivalence checker *)

(** A [Set<string>] keeps its elements in insertion order, without
    duplicates. *)
Definition setAdd (vars : list string) (name : string) : list string :=
  if existsb (String.eqb name) vars then vars else vars ++ [name].

Fixpoint traverse (e : AlgExpr) (vars : list string) : list string :=
  match e with
  | Var name => setAdd vars name
  | Neg arg => traverse arg vars
  | Add arg1 arg2 | Sub arg1 arg2 | Mul arg1 arg2 | Div arg1 arg2 =>
      traverse arg2 (traverse arg1 vars)
  | Int _ => vars
  end.

Definition getVariablesSet (expr : AlgExpr) : list string :=
  traverse expr [].

(** [new Set([...Array.from(vars1), ...Array.from(vars2)])] *)
Definition unionSet (vars1 vars2 : list string) : list string :=
  fold_left setAdd (vars1 ++ vars2) [].

(** A [Map<string, number>]: [set] overwrites the entry of a key it holds and
    appends a new one otherwise; [get] of a key it does not hold is
    [undefined], here [None]. *)
Definition VarMap : Type := list (string * Z).

Fixpoint mapSet (varMap : VarMap) (key : string) (value : Z) : VarMap :=
  match varMap with
  | [] => [(key, value)]
  | (k, v) :: varMap' =>
      if String.eqb k key then (key, value) :: varMap'
      else (k, v) :: mapSet varMap' key value
  end.

Fixpoint mapGet (varMap : VarMap) (key : string) : option Z :=
  match varMap with
  | [] => None
  | (k, v) :: varMap' => if String.eqb k key then Some v else mapGet varMap' key
  end.

(** [varMap.get(expr.name)!]: the source asserts the key is there. A missing
    key would put [undefined] into the tree, which is no integer; the model
    stops there with [UndefinedValue]. *)
Fixpoint substituteVariables (varMap : VarMap) (expr : AlgExpr)
  : result AlgExpr :=
  match expr with
  | Var name =>
      match mapGet varMap name with
      | Some value => Ok (Int value)
      | None => Err UndefinedValue
      end
  | Neg arg =>
      arg' <- substituteVariables varMap arg ;;
      Ok (Neg arg')
  | Add arg1 arg2 =>
      arg1' <- substituteVariables varMap arg1 ;;
      arg2' <- substituteVariables varMap arg2 ;;
      Ok (Add arg1' arg2')
  | Sub arg1 arg2 =>
      arg1' <- substituteVariables varMap arg1 ;;
      arg2' <- substituteVariables varMap arg2 ;;
      Ok (Sub arg1' arg2')
  | Mul arg1 arg2 =>
      arg1' <- substituteVariables varMap arg1 ;;
      arg2' <- substituteVariables varMap arg2 ;;
      Ok (Mul arg1' arg2')
  | Div arg1 arg2 =>
      arg1' <- substituteVariables varMap arg1 ;;
      arg2' <- substituteVariables varMap arg2 ;;
      Ok (Div arg1' arg2')
  | Int _ => Ok expr
  end.

(** The value of a tree as a number; [None] is NaN. A NaN operand makes
    the result NaN, and so does a denominator equal to zero. The values are
    exact rationals; the code rounds every operation to a double, and
    agrees with this on integers up to [2^53]. *)
Definition liftQ (f : Q -> Q -> Q) (a b : option Q) : option Q :=
  match a, b with
  | Some x, Some y => Some (f x y)
  | _, _ => None
  end.

Fixpoint getComputedValue (expr : AlgExpr) : option Q :=
  match expr with
  | Int value => Some (inject_Z value)
  | Neg arg => option_map Qopp (getComputedValue arg)
  | Add arg1 arg2 => liftQ Qplus (getComputedValue arg1) (getComputedValue arg2)
  | Sub arg1 arg2 => liftQ Qminus (getComputedValue arg1) (getComputedValue arg2)
  | Mul arg1 arg2 => liftQ Qmult (getComputedValue arg1) (getComputedValue arg2)
  | Div arg1 arg2 =>
      match getComputedValue arg2 with
      | Some denom =>
          if Qeq_bool denom 0 then None
          else liftQ Qdiv (getComputedValue arg1) (Some denom)
      | None => None
      end
  | Var _ => None
  end.

(** The outcome of one iteration of the [for] loop. *)
Inductive Trial : Type :=
| Mismatch   (* both values defined and further apart than the tolerance *)
| Agree      (* both values defined and within the tolerance *)
| Skipped.   (* one of the values is NaN *)

Definition compareValues (val1 val2 : option Q) : Trial :=
  match val1, val2 with
  | Some v1, Some v2 =>
      if Qle_bool (Qabs (v1 - v2)) (1 # 10000) then Agree else Mismatch
  | _, _ => Skipped
  end.

Section RandomSource.

(** [random k] is what the [k]-th call of [Math.random()] returns. The
    number of calls made so far is threaded through the loops. *)
Variable random : nat -> Q.

Definition iterations : nat := 10.
Definition range : Z := 100.

(** [vars.forEach(v => varMap.set(v, Math.floor(Math.random() * range) - range/2))] *)
Fixpoint drawVariables (vars : list string) (varMap : VarMap) (calls : nat)
  : VarMap * nat :=
  match vars with
  | [] => (varMap, calls)
  | v :: vars' =>
      drawVariables vars'
        (mapSet varMap v (Qfloor (random calls * inject_Z range) - range / 2))
        (S calls)
  end.

(** The body of the [for] loop up to the comparison. *)
Definition runTrial (vars : list string) (expr1 expr2 : AlgExpr)
    (calls : nat) : result (Trial * nat) :=
  let '(varMap, calls') := drawVariables vars [] calls in
  substitutedExpr1 <- substituteVariables varMap expr1 ;;
  substitutedExpr2 <- substituteVariables varMap expr2 ;;
  evaluatedExpr1 <- evaluateExpression substitutedExpr1 ;;
  evaluatedExpr2 <- evaluateExpression substitutedExpr2 ;;
  Ok (compareValues (getComputedValue evaluatedExpr1)
        (getComputedValue evaluatedExpr2), calls').

(** The [for] loop with [remaining] iterations to go. *)
Fixpoint trialLoop (remaining : nat) (vars : list string)
    (expr1 expr2 : AlgExpr) (calls : nat) : result bool :=
  match remaining with
  | O => Ok true
  | S remaining' =>
      '(outcome, calls') <- runTrial vars expr1 expr2 calls ;;
      match outcome with
      | Mismatch => Ok false
      | Agree | Skipped => trialLoop remaining' vars expr1 expr2 calls'
      end
  end.

Definition areExpressionsEquivalent (expr1 expr2 : AlgExpr) : result bool :=
  let vars1 := getVariablesSet expr1 in
  let vars2 := getVariablesSet expr2 in
  let vars := unionSet vars1 vars2 in
  trialLoop iterations vars expr1 expr2 0.

End RandomSource.

(** ** The grammar of the spec

    [AddSub := MulDiv (('+' | '-') MulDiv)*],
    [MulDiv := Primary (('*' | '/') Primary)*],
    [Primary := '-' Primary | NUMBER | VAR | '(' AddSub ')'],
    with the repetitions folding to the left. [GMulDivRest left ts e] reads:
    the repetition after a left operand [left] spells [ts] and builds [e]. *)

Inductive GPrimary : list Token -> AlgExpr -> Prop :=
| GP_neg ts e : GPrimary ts e -> GPrimary (TOp Minus :: ts) (Neg e)
| GP_number n : GPrimary [TNumber n] (Int n)
| GP_var x : GPrimary [TVar x] (Var x)
| GP_paren ts e : GAddSub ts e -> GPrimary (TLParen :: ts ++ [TRParen]) e
with GMulDiv : list Token -> AlgExpr -> Prop :=
| GMD ts1 e1 ts2 e :
    GPrimary ts1 e1 -> GMulDivRest e1 ts2 e -> GMulDiv (ts1 ++ ts2) e
with GMulDivRest : AlgExpr -> list Token -> AlgExpr -> Prop :=
| GMR_done lhs : GMulDivRest lhs [] lhs
| GMR_times lhs ts1 e1 ts2 e :
    GPrimary ts1 e1 -> GMulDivRest (Mul lhs e1) ts2 e ->
    GMulDivRest lhs (TOp Times :: ts1 ++ ts2) e
| GMR_slash lhs ts1 e1 ts2 e :
    GPrimary ts1 e1 -> GMulDivRest (Div lhs e1) ts2 e ->
    GMulDivRest lhs (TOp Slash :: ts1 ++ ts2) e
with GAddSub : list Token -> AlgExpr -> Prop :=
| GAS ts1 e1 ts2 e :
    GMulDiv ts1 e1 -> GAddSubRest e1 ts2 e -> GAddSub (ts1 ++ ts2) e
with GAddSubRest : AlgExpr -> list Token -> AlgExpr -> Prop :=
| GAR_done lhs : GAddSubRest lhs [] lhs
| GAR_plus lhs ts1 e1 ts2 e :
    GMulDiv ts1 e1 -> GAddSubRest (Add lhs e1) ts2 e ->
    GAddSubRest lhs (TOp Plus :: ts1 ++ ts2) e
| GAR_minus lhs ts1 e1 ts2 e :
    GMulDiv ts1 e1 -> GAddSubRest (Sub lhs e1) ts2 e ->
    GAddSubRest lhs (TOp Minus :: ts1 ++ ts2) e.

Scheme GPrimary_mut := Minimality for GPrimary Sort Prop
  with GMulDiv_mut := Minimality for GMulDiv Sort Prop
  with GMulDivRest_mut := Minimality for GMulDivRest Sort Prop
  with GAddSub_mut := Minimality for GAddSub Sort Prop
  with GAddSubRest_mut := Minimality for GAddSubRest Sort Prop.

Combined Scheme grammar_mutind from
  GPrimary_mut, GMulDiv_mut, GMulDivRest_mut, GAddSub_mut, GAddSubRest_mut.

(** ** Shapes of trees *)

(** No [Neg (Neg _)] anywhere in the tree. *)
Fixpoint noNegNeg (e : AlgExpr) : bool :=
  match e with
  | Int _ | Var _ => true
  | Add a b | Sub a b | Mul a b | Div a b => noNegNeg a && noNegNeg b
  | Neg (Neg _) => false
  | Neg a => noNegNeg a
  end.

(** No [Int] with a negative value anywhere in the tree. *)
Fixpoint noNegativeInt (e : AlgExpr) : bool :=
  match e with
  | Int n => 0 <=? n
  | Var _ => true
  | Add a b | Sub a b | Mul a b | Div a b => noNegativeInt a && noNegativeInt b
  | Neg a => noNegativeInt a
  end.

(** Every numeric subtree is [Int n] with [0 <= n] or [Neg (Int n)] with
    [0 < n]. *)
Fixpoint numericStandard (e : AlgExpr) : bool :=
  match e with
  | Int n => 0 <=? n
  | Var _ => true
  | Add a b | Sub a b | Mul a b | Div a b => numericStandard a && numericStandard b
  | Neg (Int n) => 0 <? n
  | Neg a => numericStandard a
  end.

Definition standardized (e : AlgExpr) : bool :=
  noNegNeg e && noNegativeInt e && numericStandard e.

(** A name the tokenizer reads back as one [var] token: a non-empty run of
    ASCII letters. *)
Definition isIdentifier (name : string) : bool :=
  match list_ascii_of_string name with
  | [] => false
  | cs => forallb isLetter cs
  end.

(** Trees whose [Int] leaves are non-negative and whose [Var] names are
    identifiers. *)
Fixpoint renderable (e : AlgExpr) : bool :=
  match e with
  | Int n => 0 <=? n
  | Var name => isIdentifier name
  | Add a b | Sub a b | Mul a b | Div a b => renderable a && renderable b
  | Neg a => renderable a
  end.

(** The tokens of [renderExpression e]. *)
Fixpoint tokensOf (e : AlgExpr) : list Token :=
  match e with
  | Int n => [TNumber n]
  | Var name => [TVar name]
  | Add a b => TLParen :: tokensOf a ++ TOp Plus :: tokensOf b ++ [TRParen]
  | Sub a b => TLParen :: tokensOf a ++ TOp Minus :: tokensOf b ++ [TRParen]
  | Mul a b => TLParen :: tokensOf a ++ TOp Times :: tokensOf b ++ [TRParen]
  | Div a b => TLParen :: tokensOf a ++ TOp Slash :: tokensOf b ++ [TRParen]
  | Neg a => TLParen :: TOp Minus :: tokensOf a ++ [TRParen]
  end.

(** ** Notions used in the statements *)

(** A parser is sound for a rule of the grammar when every result it
    returns splits its input into a phrase of the rule and the tokens left. *)
Definition SoundFor (G : list Token -> AlgExpr -> Prop)
    (p : ParserOf AlgExpr) : Prop :=
  forall ts e r, p ts = Ok (e, r) -> exists pre, ts = pre ++ r /\ G pre e.

(** A successful call moves the cursor forward. *)
Definition Consumes (p : ParserOf AlgExpr) : Prop :=
  forall ts e r, p ts = Ok (e, r) -> (List.length r < List.length ts)%nat.

(** On inputs shorter than [bound], [p] fails with syntax errors only. *)
Definition FailsSyntactic (bound : nat) (p : ParserOf AlgExpr) : Prop :=
  forall ts err,
    (List.length ts < bound)%nat -> p ts = Err err -> isSyntaxError err = true.

(** The one token of lookahead: does the input go on with an operator of
    the loop? *)
Definition startsMulDiv (ts : list Token) : bool :=
  match ts with
  | TOp Times :: _ | TOp Slash :: _ => true
  | _ => false
  end.

Definition startsOp (ts : list Token) : bool :=
  match ts with
  | TOp _ :: _ => true
  | _ => false
  end.

(** What completeness asks of each rule: on a phrase [ts] of the rule for
    [e], followed by any [rest] that the rule's loop does not go on with, the
    parser returns [e] and stops in front of [rest], whenever its bounds
    exceed the length of the input. *)
Definition CompletePrimary (ts : list Token) (e : AlgExpr) : Prop :=
  forall fuel rest,
    (List.length ts + List.length rest < fuel)%nat ->
    parsePrimary fuel (ts ++ rest) = Ok (e, rest).

Definition CompleteMulDiv (ts : list Token) (e : AlgExpr) : Prop :=
  forall fuel n rest,
    startsMulDiv rest = false ->
    (List.length ts + List.length rest < fuel)%nat ->
    (List.length ts + List.length rest <= n)%nat ->
    parseMulDivWith (parsePrimary fuel) n (ts ++ rest) = Ok (e, rest).

Definition CompleteMulDivRest (lhs : AlgExpr) (ts : list Token) (e : AlgExpr)
  : Prop :=
  forall fuel n rest,
    startsMulDiv rest = false ->
    (List.length ts + List.length rest < fuel)%nat ->
    (List.length ts + List.length rest <= n)%nat ->
    mulDivLoop (parsePrimary fuel) n lhs (ts ++ rest) = Ok (e, rest).

Definition CompleteAddSub (ts : list Token) (e : AlgExpr) : Prop :=
  forall fuel n rest,
    startsOp rest = false ->
    (List.length ts + List.length rest < fuel)%nat ->
    (List.length ts + List.length rest <= n)%nat ->
    parseAddSubWith (parsePrimary fuel) n (ts ++ rest) = Ok (e, rest).

Definition CompleteAddSubRest (lhs : AlgExpr) (ts : list Token) (e : AlgExpr)
  : Prop :=
  forall fuel m n rest,
    startsOp rest = false ->
    (List.length ts + List.length rest < fuel)%nat ->
    (List.length ts + List.length rest <= m)%nat ->
    (List.length ts + List.length rest <= n)%nat ->
    addSubLoop (parseMulDivWith (parsePrimary fuel) m) n lhs (ts ++ rest)
      = Ok (e, rest).

(** The code units of a string, in order. *)
Definition chars (s : string) : list ascii := list_ascii_of_string s.

(** The characters the tokenizer has a rule for. *)
Definition recognized (c : ascii) : bool :=
  isSpace c || isDigit c || isLetter c ||
  match opOfChar c with Some _ => true | None => false end ||
  Ascii.eqb c "(" || Ascii.eqb c ")".

(** The tokenizer at the iteration bound [tokenize] gives it. *)
Definition tokenizeFrom (input : list ascii) (tokens : list Token)
  : result (list Token) :=
  tokenizeLoop (List.length input) input tokens.

(** An inner loop stops in front of [rest]: at the end of the input or at a
    character that fails the test. *)
Definition stopsAt (test : ascii -> bool) (rest : list ascii) : bool :=
  match rest with
  | [] => true
  | c :: _ => negb (test c)
  end.

(** The node an operator token builds, and the precedence level of the
    operator. *)
Definition binaryOf (op : Op) : AlgExpr -> AlgExpr -> AlgExpr :=
  match op with
  | Plus => Add
  | Minus => Sub
  | Times => Mul
  | Slash => Div
  end.

Definition isAdditive (op : Op) : bool :=
  match op with
  | Plus | Minus => true
  | Times | Slash => false
  end.

(** [x] is the name of a [Var] leaf of [e]. *)
Fixpoint occurs (x : string) (e : AlgExpr) : Prop :=
  match e with
  | Int _ => False
  | Var name => x = name
  | Add a b | Sub a b | Mul a b | Div a b => occurs x a \/ occurs x b
  | Neg a => occurs x a
  end.

(** The map holds a value for [x]. *)
Definition bound (varMap : VarMap) (x : string) : Prop :=
  exists value, mapGet varMap x = Some value.

(** ** Typeset renderer *)

(** Render expression to LaTeX format for MathJax. *)
Fixpoint renderExpressionLatex (expression : AlgExpr) : string :=
  match expression with
  | Int value => toString value
  | Var name => name
  | Add arg1 arg2 =>
      renderExpressionLatex arg1 ++ " + " ++ renderExpressionLatex arg2
  | Sub arg1 arg2 =>
      renderExpressionLatex arg1 ++ " - " ++ renderExpressionLatex arg2
  | Mul arg1 arg2 =>
      renderExpressionLatex arg1 ++ " \cdot " ++ renderExpressionLatex arg2
  | Div arg1 arg2 =>
      "\frac{" ++ renderExpressionLatex arg1 ++ "}{"
        ++ renderExpressionLatex arg2 ++ "}"
  | Neg arg => "-" ++ renderExpressionLatex arg
  end%string.

(** ** Notions used in the further statements *)

(** The arithmetic of one operator node on the values of its evaluated
    children: [None] where the evaluator keeps the node (a division by zero
    or with a remainder). *)
Definition foldZ (op : Op) (vl vr : Z) : option Z :=
  match op with
  | Plus => Some (vl + vr)
  | Minus => Some (vl - vr)
  | Times => Some (vl * vr)
  | Slash =>
      if negb (vr =? 0) && (Z.rem vl vr =? 0) then Some (Z.quot vl vr)
      else None
  end.

(** What an operator node becomes once its children are evaluated to
    [l] and [r]. *)
Definition foldNode (op : Op) (l r : AlgExpr) : AlgExpr :=
  match getValue l, getValue r with
  | Ok vl, Ok vr =>
      match foldZ op vl vr with
      | Some n => standardizeNumber n
      | None => binaryOf op l r
      end
  | _, _ => binaryOf op l r
  end.

(** Two values of [getComputedValue] are the same: both NaN, or equal
    rationals. *)
Definition sameValue (a b : option Q) : Prop :=
  match a, b with
  | Some x, Some y => x == y
  | None, None => True
  | _, _ => False
  end.

(** The clause of [getComputedValue] for each operator. *)
Definition binQ (op : Op) (a b : option Q) : option Q :=
  match op with
  | Plus => liftQ Qplus a b
  | Minus => liftQ Qminus a b
  | Times => liftQ Qmult a b
  | Slash =>
      match b with
      | Some denom => if Qeq_bool denom 0 then None else liftQ Qdiv a (Some denom)
      | None => None
      end
  end.

(** Number of nodes of a tree. *)
Fixpoint size (e : AlgExpr) : nat :=
  match e with
  | Int _ | Var _ => 1
  | Add a b | Sub a b | Mul a b | Div a b => S (size a + size b)
  | Neg a => S (size a)
  end.

(** Trees built from [Int], [Add], [Sub], [Mul] and [Neg] only, and their
    integer value. *)
Fixpoint closedArith (e : AlgExpr) : bool :=
  match e with
  | Int _ => true
  | Var _ | Div _ _ => false
  | Add a b | Sub a b | Mul a b => closedArith a && closedArith b
  | Neg a => closedArith a
  end.

Fixpoint arithValue (e : AlgExpr) : Z :=
  match e with
  | Int n => n
  | Add a b => arithValue a + arithValue b
  | Sub a b => arithValue a - arithValue b
  | Mul a b => arithValue a * arithValue b
  | Neg a => - arithValue a
  | Var _ | Div _ _ => 0
  end.

(** The tokens the tokenizer can emit: a number is not negative and a
    variable name is a non-empty run of letters. *)
Definition tokenWellFormed (t : Token) : bool :=
  match t with
  | TNumber n => 0 <=? n
  | TVar name => isIdentifier name
  | _ => true
  end.

(** The answer of the checker after a trial with this outcome repeats. *)
Definition answerOf (outcome : Trial) : bool :=
  match outcome with
  | Mismatch => false
  | Agree | Skipped => true
  end.

(** ** The range in which numbers are exact *)

(** A JavaScript number holds every integer up to [2^53] in absolute value
    exactly, prints it in plain decimal and reads it back from its digits;
    a sum, difference or product of two such integers is exact when it is
    again in this range. Up to this bound the integers of the model are
    the numbers of the code; beyond it the code rounds, and prints in
    exponent notation from [10^21] on. *)
Definition maxExact : Z := 9007199254740992.

Definition exactInt (n : Z) : bool := (- maxExact <=? n) && (n <=? maxExact).

(** Every [Int] leaf is in the exact range. *)
Fixpoint exactLeaves (e : AlgExpr) : bool :=
  match e with
  | Int n => exactInt n
  | Var _ => true
  | Add a b | Sub a b | Mul a b | Div a b => exactLeaves a && exactLeaves b
  | Neg a => exactLeaves a
  end.

(** The integer value of every subtree is in the exact range. *)
Fixpoint exactArith (e : AlgExpr) : bool :=
  exactInt (arithValue e) &&
  match e with
  | Int _ | Var _ => true
  | Add a b | Sub a b | Mul a b | Div a b => exactArith a && exactArith b
  | Neg a => exactArith a
  end.

(** Some division of the tree has a denominator without variables and
    divisions whose integer value, computed in the exact range, is zero. *)
Fixpoint dividesByZero (e : AlgExpr) : bool :=
  match e with
  | Int _ | Var _ => false
  | Div a b =>
      (closedArith b && exactArith b && (arithValue b =? 0))
      || dividesByZero a || dividesByZero b
  | Add a b | Sub a b | Mul a b => dividesByZero a || dividesByZero b
  | Neg a => dividesByZero a
  end.

(** Trees without [Div]. *)
Fixpoint divisionFree (e : AlgExpr) : bool :=
  match e with
  | Int _ | Var _ => true
  | Div _ _ => false
  | Add a b | Sub a b | Mul a b => divisionFree a && divisionFree b
  | Neg a => divisionFree a
  end.

(** A bound on the absolute value of a division-free tree when every
    variable is at most 50 in absolute value, as the values the checker
    draws are. *)
Fixpoint boundUnder (e : AlgExpr) : Z :=
  match e with
  | Int n => Z.abs n
  | Var _ => 50
  | Add a b | Sub a b => boundUnder a + boundUnder b
  | Mul a b => boundUnder a * boundUnder b
  | Neg a => boundUnder a
  | Div _ _ => 0
  end.

(** That bound stays in the exact range at every subtree. *)
Fixpoint exactUnder (e : AlgExpr) : bool :=
  (boundUnder e <=? maxExact) &&
  match e with
  | Int _ | Var _ => true
  | Add a b | Sub a b | Mul a b | Div a b => exactUnder a && exactUnder b
  | Neg a => exactUnder a
  end.

(** Every value of the map is one the checker can draw. *)
Definition drawnValues (varMap : VarMap) : Prop :=
  forall x v, mapGet varMap x = Some v -> -50 <= v <= 49.

(** * Properties *)

(** ** The error monad *)

Lemma bind_Ok_inv {A B : Type} (m : result A) (k : A -> result B) (b : B) :
  bind m k = Ok b -> exists a, m = Ok a /\ k a = Ok b.
Proof.
  destruct m as [a|err]; simpl; intros H; [exists a; auto | discriminate].
Qed.

Ltac inv_bind H :=
  let x := fresh "x" in
  let Hx := fresh "Hx" in
  apply bind_Ok_inv in H; destruct H as (x & Hx & H).

(** ** Evaluator *)

Lemma isNumber_getValue (x : AlgExpr) :
  isNumber x = true -> exists n, getValue x = Ok n.
Proof.
  destruct x as [n| | | | | |[n| | | | | |]]; simpl; try discriminate; eauto.
Qed.

Lemma getValue_isNumber (x : AlgExpr) (n : Z) :
  getValue x = Ok n -> isNumber x = true.
Proof.
  destruct x as [m| | | | | |[m| | | | | |]]; simpl; congruence.
Qed.

Lemma getValue_not_number (x : AlgExpr) :
  isNumber x = false -> getValue x = Err ExpressionIsNotANumber.
Proof.
  destruct x as [m| | | | | |[m| | | | | |]]; simpl; congruence.
Qed.

(** What the two reducing branches can return. *)
Lemma evaluateArith_cases mk f l r :
  (exists n, isNumber l = true /\ isNumber r = true /\
             evaluateArith mk f l r = Ok (standardizeNumber n)) \/
  (isNumber l && isNumber r = false /\ evaluateArith mk f l r = Ok (mk l r)).
Proof.
  unfold evaluateArith.
  destruct (isNumber l) eqn:Hl, (isNumber r) eqn:Hr; simpl; auto.
  destruct (isNumber_getValue l Hl) as [vl ->].
  destruct (isNumber_getValue r Hr) as [vr ->]. simpl.
  left; eauto.
Qed.

Lemma evaluateDiv_cases l r :
  (exists n, isNumber l = true /\ isNumber r = true /\
             evaluateDiv l r = Ok (standardizeNumber n)) \/
  evaluateDiv l r = Ok (Div l r).
Proof.
  unfold evaluateDiv.
  destruct (isNumber l) eqn:Hl, (isNumber r) eqn:Hr; simpl; auto.
  destruct (isNumber_getValue l Hl) as [vl ->].
  destruct (isNumber_getValue r Hr) as [vr ->]. simpl.
  destruct (vr =? 0); simpl; auto.
  destruct (Z.rem vl vr =? 0); eauto.
Qed.

Lemma evaluateExpression_total (e : AlgExpr) :
  exists v, evaluateExpression e = Ok v.
Proof.
  induction e as [n|x|a [l Ha] b [r Hb]|a [l Ha] b [r Hb]|a [l Ha] b [r Hb]
                 |a [l Ha] b [r Hb]|a [v Ha]];
    simpl; eauto; try rewrite Ha; try rewrite Hb; simpl.
  - destruct (evaluateArith_cases Add Z.add l r) as [(n & _ & _ & ->)|[_ ->]]; eauto.
  - destruct (evaluateArith_cases Sub Z.sub l r) as [(n & _ & _ & ->)|[_ ->]]; eauto.
  - destruct (evaluateArith_cases Mul Z.mul l r) as [(n & _ & _ & ->)|[_ ->]]; eauto.
  - destruct (evaluateDiv_cases l r) as [(n & _ & _ & ->)| ->]; eauto.
  - destruct v; eauto.
Qed.

Lemma standardizeNumber_standardized (n : Z) :
  standardized (standardizeNumber n) = true.
Proof.
  unfold standardized, standardizeNumber.
  destruct (n <? 0) eqn:Hn; simpl.
  - apply Z.ltb_lt in Hn.
    replace (0 <=? - n) with true by (symmetry; apply Z.leb_le; lia).
    replace (0 <? - n) with true by (symmetry; apply Z.ltb_lt; lia).
    reflexivity.
  - apply Z.ltb_ge in Hn.
    replace (0 <=? n) with true by (symmetry; apply Z.leb_le; lia).
    reflexivity.
Qed.

Lemma standardized_parts (e : AlgExpr) :
  standardized e = true ->
  noNegNeg e = true /\ noNegativeInt e = true /\ numericStandard e = true.
Proof.
  unfold standardized. intros H.
  apply andb_prop in H as [H H3]. apply andb_prop in H as [H1 H2]. auto.
Qed.

Lemma standardizeNumber_fixed (n : Z) :
  evaluateExpression (standardizeNumber n) = Ok (standardizeNumber n).
Proof.
  unfold standardizeNumber. destruct (n <? 0); reflexivity.
Qed.

Lemma noNegNeg_Neg_inv (a : AlgExpr) :
  noNegNeg (Neg a) = true ->
  noNegNeg a = true /\ (forall b, a <> Neg b).
Proof.
  destruct a; simpl; intros H; try discriminate; split; auto; discriminate.
Qed.

Lemma noNegNeg_Neg_intro (a : AlgExpr) :
  noNegNeg a = true -> (forall b, a <> Neg b) -> noNegNeg (Neg a) = true.
Proof.
  destruct a; simpl; auto. intros _ H. now elim (H a).
Qed.

Lemma evaluateExpression_noNegNeg (e v : AlgExpr) :
  evaluateExpression e = Ok v -> noNegNeg v = true.
Proof.
  revert v.
  induction e as [n|x|a IHa b IHb|a IHa b IHb|a IHa b IHb|a IHa b IHb|a IHa];
    simpl; intros v H.
  1, 2: injection H as <-; reflexivity.
  1, 2, 3:
    inv_bind H; inv_bind H;
    match type of H with
    | evaluateArith ?mk ?f ?l ?r = _ =>
        destruct (evaluateArith_cases mk f l r) as [(n & _ & _ & E)|[_ E]];
        rewrite E in H; injection H as <-;
        [ apply standardized_parts, standardizeNumber_standardized
        | simpl; rewrite (IHa _ Hx), (IHb _ Hx0); reflexivity ]
    end.
  - inv_bind H; inv_bind H.
    destruct (evaluateDiv_cases x x0) as [(n & _ & _ & E)|E];
      rewrite E in H; injection H as <-.
    + apply standardized_parts, standardizeNumber_standardized.
    + simpl; rewrite (IHa _ Hx), (IHb _ Hx0); reflexivity.
  - inv_bind H. specialize (IHa _ Hx).
    destruct x; injection H as <-;
      try (apply noNegNeg_Neg_intro; [assumption | intros ?; discriminate]).
    apply noNegNeg_Neg_inv in IHa. tauto.
Qed.

Lemma evaluateExpression_noNegativeInt (e v : AlgExpr) :
  noNegativeInt e = true ->
  evaluateExpression e = Ok v -> noNegativeInt v = true.
Proof.
  revert v.
  induction e as [n|x|a IHa b IHb|a IHa b IHb|a IHa b IHb|a IHa b IHb|a IHa];
    simpl; intros v Hin H.
  1, 2: injection H as <-; assumption.
  1, 2, 3:
    apply andb_prop in Hin as [Hina Hinb];
    inv_bind H; inv_bind H;
    match type of H with
    | evaluateArith ?mk ?f ?l ?r = _ =>
        destruct (evaluateArith_cases mk f l r) as [(n & _ & _ & E)|[_ E]];
        rewrite E in H; injection H as <-;
        [ apply standardized_parts, standardizeNumber_standardized
        | simpl; rewrite (IHa _ Hina Hx), (IHb _ Hinb Hx0); reflexivity ]
    end.
  - apply andb_prop in Hin as [Hina Hinb].
    inv_bind H; inv_bind H.
    destruct (evaluateDiv_cases x x0) as [(n & _ & _ & E)|E];
      rewrite E in H; injection H as <-.
    + apply standardized_parts, standardizeNumber_standardized.
    + simpl; rewrite (IHa _ Hina Hx), (IHb _ Hinb Hx0); reflexivity.
  - inv_bind H. specialize (IHa _ Hin Hx).
    destruct x; injection H as <-; assumption.
Qed.

Lemma evaluateExpression_Neg (a v : AlgExpr) :
  evaluateExpression a = Ok v ->
  evaluateExpression (Neg a) = Ok match v with Neg b => b | _ => Neg v end.
Proof.
  intros H. simpl. rewrite H. destruct v; reflexivity.
Qed.

(** A value of the evaluator is a fixed point of it. *)
Lemma evaluateExpression_fixed (e v : AlgExpr) :
  evaluateExpression e = Ok v -> evaluateExpression v = Ok v.
Proof.
  revert v.
  induction e as [n|x|a IHa b IHb|a IHa b IHb|a IHa b IHb|a IHa b IHb|a IHa];
    simpl; intros v H.
  1, 2: injection H as <-; reflexivity.
  1, 2, 3:
    inv_bind H; inv_bind H;
    match type of H with
    | evaluateArith ?mk ?f ?l ?r = _ =>
        destruct (evaluateArith_cases mk f l r) as [(n & _ & _ & E)|[_ E]];
        [ rewrite E in H; injection H as <-; apply standardizeNumber_fixed
        | pose proof H as H'; rewrite E in H'; injection H' as <-;
          simpl; rewrite (IHa _ Hx), (IHb _ Hx0); exact H ]
    end.
  - inv_bind H; inv_bind H.
    destruct (evaluateDiv_cases x x0) as [(n & _ & _ & E)|E].
    + rewrite E in H; injection H as <-; apply standardizeNumber_fixed.
    + pose proof H as H'; rewrite E in H'; injection H' as <-.
      simpl; rewrite (IHa _ Hx), (IHb _ Hx0); exact H.
  - inv_bind H.
    specialize (IHa _ Hx).
    destruct x; injection H as <-;
      try (rewrite (evaluateExpression_Neg _ _ IHa); reflexivity).
    (* the child evaluated to [Neg x]: the result is [x] *)
    destruct (evaluateExpression_total x) as [w Hw].
    rewrite (evaluateExpression_Neg _ _ Hw) in IHa.
    destruct w; injection IHa as E; try (rewrite Hw; congruence).
    subst w. apply evaluateExpression_noNegNeg in Hw. discriminate.
Qed.

Lemma evaluate_binary_eq (a b l r : AlgExpr) :
  evaluateExpression a = Ok l -> evaluateExpression b = Ok r ->
  evaluateExpression (Add a b) = evaluateArith Add Z.add l r /\
  evaluateExpression (Sub a b) = evaluateArith Sub Z.sub l r /\
  evaluateExpression (Mul a b) = evaluateArith Mul Z.mul l r /\
  evaluateExpression (Div a b) = evaluateDiv l r.
Proof.
  intros Ha Hb. simpl. rewrite Ha, Hb. simpl. auto.
Qed.

Lemma getValue_standardizeNumber (n : Z) :
  getValue (standardizeNumber n) = Ok n.
Proof.
  unfold standardizeNumber. destruct (n <? 0); simpl; f_equal. lia.
Qed.

Lemma isNumber_standardizeNumber (n : Z) :
  isNumber (standardizeNumber n) = true.
Proof. unfold standardizeNumber. destruct (n <? 0); reflexivity. Qed.

Lemma standardizeNumber_shape (n : Z) :
  (standardizeNumber n = Int n /\ 0 <= n) \/
  (standardizeNumber n = Neg (Int (- n)) /\ 0 < - n).
Proof.
  unfold standardizeNumber. destruct (n <? 0) eqn:E.
  - apply Z.ltb_lt in E. right. split; [reflexivity|lia].
  - apply Z.ltb_ge in E. left. split; [reflexivity|lia].
Qed.

(** The worked cases of the spec. *)
Example evaluate_examples :
  parseExpression "1 + 10" = Ok (Add (Int 1) (Int 10)) /\
  bind (parseExpression "1 + 10") evaluateExpression = Ok (Int 11) /\
  bind (parseExpression "5 - 9") evaluateExpression = Ok (Neg (Int 4)) /\
  bind (parseExpression "--5") evaluateExpression = Ok (Int 5) /\
  renderExpression (Add (Int 1) (Int 2)) = "(1 + 2)" /\
  renderExpression (Neg (Var "x")) = "(-x)" /\
  tokenize "abc" = Ok [TVar "abc"] /\
  tokenize "007" = Ok [TNumber 7].
Proof. repeat split. Qed.

(** C9. The "Expression is not a number" error cannot come out of the
    evaluator: [getValue] fails exactly on the nodes [isNumber] rejects, the
    two reducing branches only call it behind [isNumber], and so
    [evaluateExpression] returns a tree on every input. *)
Theorem evaluation_error_unreachable :
  (forall x, if isNumber x then exists n, getValue x = Ok n
             else getValue x = Err ExpressionIsNotANumber) /\
  (forall mk f l r, exists v, evaluateArith mk f l r = Ok v) /\
  (forall l r, exists v, evaluateDiv l r = Ok v) /\
  (forall e, exists v, evaluateExpression e = Ok v).
Proof.
  repeat split.
  - intros x. destruct (isNumber x) eqn:Hx.
    + now apply isNumber_getValue.
    + now apply getValue_not_number.
  - intros mk f l r.
    destruct (evaluateArith_cases mk f l r) as [(n & _ & _ & ->)|[_ ->]]; eauto.
  - intros l r.
    destruct (evaluateDiv_cases l r) as [(n & _ & _ & ->)| ->]; eauto.
  - apply evaluateExpression_total.
Qed.

(** The evaluator leaves [Neg (Int 0)] as it is, also when it is what the
    parser reads from "-0", builds it from "-(1-1)", and returns an [Int]
    leaf with a negative value unchanged. *)
Lemma evaluate_output_not_standardized :
  parseExpression "-0" = Ok (Neg (Int 0)) /\
  evaluateExpression (Neg (Int 0)) = Ok (Neg (Int 0)) /\
  noNegativeInt (Neg (Int 0)) = true /\
  standardized (Neg (Int 0)) = false /\
  bind (parseExpression "-(1-1)") evaluateExpression = Ok (Neg (Int 0)) /\
  evaluateExpression (Int (-5)) = Ok (Int (-5)) /\
  standardized (Int (-5)) = false.
Proof.
  repeat split; vm_compute; reflexivity.
Qed.

(** C1, amended. The output of the evaluator never contains [Neg (Neg _)];
    when no [Int] leaf of the input is negative, no [Int] of the output is
    negative, so a numeric subtree of the output is [Int n] or [Neg (Int n)]
    with [0 <= n]; and an operator node, once its children are evaluated, is
    either re-emitted over them or folded to a number, and what it folds to
    from children whose values are at most [2^53] in absolute value is in
    standardized form: [Int n] with [0 <= n] or [Neg (Int n)] with
    [0 < n]. *)
Theorem evaluate_standardized_nonneg_leaves :
  (forall n, standardized (standardizeNumber n) = true) /\
  (forall e, exists v,
      evaluateExpression e = Ok v /\
      noNegNeg v = true /\
      (noNegativeInt e = true -> noNegativeInt v = true)) /\
  (forall op a b l r,
      evaluateExpression a = Ok l -> evaluateExpression b = Ok r ->
      evaluateExpression (binaryOf op a b) = Ok (binaryOf op l r) \/
      exists vl vr v,
        getValue l = Ok vl /\ getValue r = Ok vr /\
        evaluateExpression (binaryOf op a b) = Ok v /\
        isNumber v = true /\
        (exactInt vl = true -> exactInt vr = true ->
         standardized v = true /\
         ((exists n, v = Int n /\ 0 <= n) \/
          (exists n, v = Neg (Int n) /\ 0 < n)))).
Proof.
  split; [exact standardizeNumber_standardized|]. split.
  - intros e. destruct (evaluateExpression_total e) as [v Hv].
    exists v. split; [assumption|]. split.
    + eapply evaluateExpression_noNegNeg; eassumption.
    + intros He. eapply evaluateExpression_noNegativeInt; eassumption.
  - intros op a b l r Ha Hb.
    assert (Hnum : forall n,
               isNumber l = true -> isNumber r = true ->
               evaluateExpression (binaryOf op a b) = Ok (standardizeNumber n) ->
               exists vl vr v,
                 getValue l = Ok vl /\ getValue r = Ok vr /\
                 evaluateExpression (binaryOf op a b) = Ok v /\
                 isNumber v = true /\
                 (exactInt vl = true -> exactInt vr = true ->
                  standardized v = true /\
                  ((exists n, v = Int n /\ 0 <= n) \/
                   (exists n, v = Neg (Int n) /\ 0 < n)))).
    { intros n Nl Nr E.
      destruct (isNumber_getValue l Nl) as [vl Hvl].
      destruct (isNumber_getValue r Nr) as [vr Hvr].
      exists vl, vr, (standardizeNumber n).
      repeat (split; [first [assumption|apply isNumber_standardizeNumber]|]).
      intros _ _. split; [apply standardizeNumber_standardized|].
      destruct (standardizeNumber_shape n) as [[-> Hn]|[-> Hn]]; eauto. }
    destruct (evaluate_binary_eq a b l r Ha Hb) as (Eadd & Esub & Emul & Ediv).
    destruct op; simpl binaryOf.
    + destruct (evaluateArith_cases Add Z.add l r)
        as [(n & Nl & Nr & E)|[_ E]]; rewrite <- Eadd in E; eauto.
    + destruct (evaluateArith_cases Sub Z.sub l r)
        as [(n & Nl & Nr & E)|[_ E]]; rewrite <- Esub in E; eauto.
    + destruct (evaluateArith_cases Mul Z.mul l r)
        as [(n & Nl & Nr & E)|[_ E]]; rewrite <- Emul in E; eauto.
    + destruct (evaluateDiv_cases l r)
        as [(n & Nl & Nr & E)|E]; rewrite <- Ediv in E; eauto.
Qed.

Lemma evaluate_standardized_nonneg_leaves_witness :
  (exists v,
      evaluateExpression (Neg (Sub (Int 5) (Int 9))) = Ok v /\
      noNegNeg v = true /\ noNegativeInt v = true) /\
  (exists v,
      evaluateExpression (Sub (Int 1) (Int 1)) = Ok v /\
      standardized v = true).
Proof.
  split.
  - destruct (proj1 (proj2 evaluate_standardized_nonneg_leaves)
                (Neg (Sub (Int 5) (Int 9))))
      as (v & Hv & Hnn & Hni).
    exists v. split; [exact Hv|]. split; [exact Hnn|]. apply Hni. reflexivity.
  - destruct (proj2 (proj2 evaluate_standardized_nonneg_leaves)
                Minus (Int 1) (Int 1) (Int 1) (Int 1) eq_refl eq_refl)
      as [E|(vl & vr & v & Hl & Hr & Hv & _ & Hs)].
    + discriminate E.
    + injection Hl as <-. injection Hr as <-.
      exists v. split; [exact Hv|]. apply Hs; reflexivity.
Defined.

(** C3. Evaluating the output of the evaluator returns it unchanged. *)
Theorem evaluate_idempotent :
  forall e, exists v,
    evaluateExpression e = Ok v /\
    bind (evaluateExpression e) evaluateExpression = Ok v.
Proof.
  intros e. destruct (evaluateExpression_total e) as [v Hv].
  exists v. split; [assumption|].
  rewrite Hv. simpl. eapply evaluateExpression_fixed; eassumption.
Qed.



(** C4. After both children are evaluated, a [Div] node collapses exactly
    when both are numeric, the divisor's value is not zero and it divides
    the dividend's value, and it collapses to the quotient as a standardized
    integer: [Int q] when [0 <= q], [Neg (Int (- q))] when [q < 0]. In every
    other case the node is re-emitted over the evaluated children. "4 / 2"
    evaluates to [Int 2] and "4 / 3" to [Div (Int 4) (Int 3)]. *)
Theorem evaluate_div_collapse :
  (forall a b, exists l r,
      evaluateExpression a = Ok l /\ evaluateExpression b = Ok r /\
      ((exists vl vr v,
           isNumber l = true /\ isNumber r = true /\
           getValue l = Ok vl /\ getValue r = Ok vr /\
           vr <> 0 /\ (vr | vl) /\
           evaluateExpression (Div a b) = Ok v /\
           v = standardizeNumber (vl / vr) /\
           isNumber v = true /\
           standardized v = true /\
           getValue v = Ok (vl / vr) /\
           ((v = Int (vl / vr) /\ 0 <= vl / vr) \/
            (v = Neg (Int (- (vl / vr))) /\ vl / vr < 0))) \/
       (~ (exists vl vr,
              getValue l = Ok vl /\ getValue r = Ok vr /\
              vr <> 0 /\ (vr | vl)) /\
        evaluateExpression (Div a b) = Ok (Div l r)))) /\
  bind (parseExpression "4 / 2") evaluateExpression = Ok (Int 2) /\
  bind (parseExpression "4 / 3") evaluateExpression = Ok (Div (Int 4) (Int 3)).
Proof.
  split; [|split; reflexivity].
  intros a b.
  destruct (evaluateExpression_total a) as [l Hl].
  destruct (evaluateExpression_total b) as [r Hr].
  exists l, r. split; [assumption|]. split; [assumption|].
  destruct (evaluate_binary_eq a b l r Hl Hr) as (_ & _ & _ & ->).
  unfold evaluateDiv.
  destruct (isNumber l) eqn:Nl; simpl.
  2: { right. split; [|reflexivity]. intros (vl & vr & E & _).
       apply getValue_isNumber in E. congruence. }
  destruct (isNumber r) eqn:Nr; simpl.
  2: { right. split; [|reflexivity]. intros (vl & vr & _ & E & _).
       apply getValue_isNumber in E. congruence. }
  destruct (isNumber_getValue l Nl) as [vl Hvl].
  destruct (isNumber_getValue r Nr) as [vr Hvr].
  rewrite Hvl, Hvr. simpl.
  destruct (vr =? 0) eqn:Hz; simpl.
  { right. split; [|reflexivity]. intros (vl' & vr' & _ & E & Hnz & _).
    apply Z.eqb_eq in Hz. congruence. }
  apply Z.eqb_neq in Hz.
  destruct (Z.rem vl vr =? 0) eqn:Hrem.
  - left. apply Z.eqb_eq in Hrem. apply Z.rem_divide in Hrem; [|assumption].
    assert (Hq : Z.quot vl vr = vl / vr).
    { destruct Hrem as [k ->].
      rewrite Z.quot_mul, Z.div_mul by assumption. reflexivity. }
    rewrite Hq.
    exists vl, vr, (standardizeNumber (vl / vr)).
    repeat (split; [first [assumption|reflexivity]|]).
    split; [apply isNumber_standardizeNumber|].
    split; [apply standardizeNumber_standardized|].
    split; [apply getValue_standardizeNumber|].
    destruct (standardizeNumber_shape (vl / vr)) as [[E Hn]|[E Hn]];
      [left|right]; split; solve [assumption|lia].
  - right. split; [|reflexivity].
    intros (vl' & vr' & El & Er & _ & Hd).
    assert (vl' = vl) by congruence. assert (vr' = vr) by congruence. subst.
    apply Z.eqb_neq in Hrem. apply Hrem. now apply Z.rem_divide.
Qed.

(** ** Parser: what it accepts is in the grammar *)

Lemma mulDivLoop_sound (operand : ParserOf AlgExpr) :
  SoundFor GPrimary operand ->
  forall fuel lhs ts e r,
    mulDivLoop operand fuel lhs ts = Ok (e, r) ->
    exists pre, ts = pre ++ r /\ GMulDivRest lhs pre e.
Proof.
  intros Hop fuel.
  induction fuel as [|fuel IH]; intros lhs ts e r H;
    destruct ts as [|[n|x|[]| |] ts']; simpl in H;
    try discriminate;
    try (injection H as <- <-; exists []; split; [reflexivity|constructor]).
  all: inv_bind H; destruct x as [rhs ts''];
    destruct (Hop _ _ _ Hx) as (p1 & -> & G1);
    destruct (IH _ _ _ _ H) as (p2 & -> & G2);
    eexists (_ :: p1 ++ p2); split;
    [simpl; rewrite <- app_assoc; reflexivity | econstructor; eassumption].
Qed.

Lemma addSubLoop_sound (operand : ParserOf AlgExpr) :
  SoundFor GMulDiv operand ->
  forall fuel lhs ts e r,
    addSubLoop operand fuel lhs ts = Ok (e, r) ->
    exists pre, ts = pre ++ r /\ GAddSubRest lhs pre e.
Proof.
  intros Hop fuel.
  induction fuel as [|fuel IH]; intros lhs ts e r H;
    destruct ts as [|[n|x|[]| |] ts']; simpl in H;
    try discriminate;
    try (injection H as <- <-; exists []; split; [reflexivity|constructor]).
  all: inv_bind H; destruct x as [rhs ts''];
    destruct (Hop _ _ _ Hx) as (p1 & -> & G1);
    destruct (IH _ _ _ _ H) as (p2 & -> & G2);
    eexists (_ :: p1 ++ p2); split;
    [simpl; rewrite <- app_assoc; reflexivity | econstructor; eassumption].
Qed.

Lemma parseMulDivWith_sound (primary : ParserOf AlgExpr) (fuel : nat) :
  SoundFor GPrimary primary -> SoundFor GMulDiv (parseMulDivWith primary fuel).
Proof.
  intros Hp ts e r H. unfold parseMulDivWith in H.
  inv_bind H. destruct x as [lhs ts'].
  destruct (Hp _ _ _ Hx) as (p1 & -> & G1).
  destruct (mulDivLoop_sound primary Hp _ _ _ _ _ H) as (p2 & -> & G2).
  exists (p1 ++ p2). split; [apply app_assoc | econstructor; eassumption].
Qed.

Lemma parseAddSubWith_sound (primary : ParserOf AlgExpr) (fuel : nat) :
  SoundFor GPrimary primary -> SoundFor GAddSub (parseAddSubWith primary fuel).
Proof.
  intros Hp ts e r H. unfold parseAddSubWith in H.
  inv_bind H. destruct x as [lhs ts'].
  pose proof (parseMulDivWith_sound primary fuel Hp) as Hmd.
  destruct (Hmd _ _ _ Hx) as (p1 & -> & G1).
  destruct (addSubLoop_sound _ Hmd _ _ _ _ _ H) as (p2 & -> & G2).
  exists (p1 ++ p2). split; [apply app_assoc | econstructor; eassumption].
Qed.

Lemma parsePrimary_sound (fuel : nat) : SoundFor GPrimary (parsePrimary fuel).
Proof.
  induction fuel as [|fuel IH]; intros ts e r H; [discriminate|].
  destruct ts as [|[n|x|[]| |] ts']; simpl in H; try discriminate.
  - injection H as <- <-. exists [TNumber n]. split; [reflexivity|constructor].
  - injection H as <- <-. exists [TVar x]. split; [reflexivity|constructor].
  - inv_bind H. destruct x as [a ts'']. injection H as <- <-.
    destruct (IH _ _ _ Hx) as (p & -> & G).
    exists (TOp Minus :: p). split; [reflexivity|now constructor].
  - inv_bind H. destruct x as [a ts''].
    destruct (parseAddSubWith_sound _ fuel IH _ _ _ Hx) as (p & -> & G).
    destruct ts'' as [|[n|x|[]| |] ts''']; try discriminate.
    injection H as <- <-.
    exists (TLParen :: p ++ [TRParen]). split; [|now constructor].
    simpl. rewrite <- app_assoc. reflexivity.
Qed.

(** Every phrase of the grammar has at least one token. *)
Lemma GPrimary_nonempty ts e : GPrimary ts e -> ts <> [].
Proof. destruct 1; discriminate. Qed.

Lemma GMulDiv_nonempty ts e : GMulDiv ts e -> ts <> [].
Proof.
  destruct 1 as [ts1 e1 ts2 e H1 _]. apply GPrimary_nonempty in H1.
  destruct ts1; [congruence|discriminate].
Qed.

Lemma GAddSub_nonempty ts e : GAddSub ts e -> ts <> [].
Proof.
  destruct 1 as [ts1 e1 ts2 e H1 _]. apply GMulDiv_nonempty in H1.
  destruct ts1; [congruence|discriminate].
Qed.

Lemma SoundFor_Consumes G p :
  (forall ts e, G ts e -> ts <> []) -> SoundFor G p -> Consumes p.
Proof.
  intros Hne Hs ts e r H. destruct (Hs _ _ _ H) as (pre & -> & Hg).
  apply Hne in Hg. rewrite length_app. destruct pre; [congruence|simpl; lia].
Qed.

Lemma parsePrimary_consumes fuel : Consumes (parsePrimary fuel).
Proof.
  eapply SoundFor_Consumes; [apply GPrimary_nonempty|apply parsePrimary_sound].
Qed.

Lemma parseMulDivWith_consumes fuel n :
  Consumes (parseMulDivWith (parsePrimary fuel) n).
Proof.
  eapply SoundFor_Consumes; [apply GMulDiv_nonempty|].
  apply parseMulDivWith_sound, parsePrimary_sound.
Qed.

(** ** Parser: every failure is a syntax error *)

Lemma bind_Err_inv {A B : Type} (m : result A) (k : A -> result B) err :
  bind m k = Err err -> m = Err err \/ exists a, m = Ok a /\ k a = Err err.
Proof.
  destruct m as [a|err']; simpl; intros H; [right; eauto | left; congruence].
Qed.

Section LoopFailures.

Variable operand : ParserOf AlgExpr.
Variable bound : nat.
Hypothesis operand_fails : FailsSyntactic bound operand.
Hypothesis operand_consumes : Consumes operand.

Lemma mulDivLoop_fails fuel lhs ts err :
  (List.length ts <= fuel)%nat -> (List.length ts <= bound)%nat ->
  mulDivLoop operand fuel lhs ts = Err err -> isSyntaxError err = true.
Proof.
  revert lhs ts.
  induction fuel as [|fuel IH]; intros lhs ts Hf Hb H;
    destruct ts as [|[n|x|[]| |] ts']; simpl in *; try discriminate; try lia.
  all: apply bind_Err_inv in H as [H|([rhs ts''] & Hop & H)];
    [ apply (operand_fails ts'); [lia|assumption]
    | apply operand_consumes in Hop; eapply (IH _ ts''); [lia|lia|eassumption] ].
Qed.

Lemma addSubLoop_fails fuel lhs ts err :
  (List.length ts <= fuel)%nat -> (List.length ts <= bound)%nat ->
  addSubLoop operand fuel lhs ts = Err err -> isSyntaxError err = true.
Proof.
  revert lhs ts.
  induction fuel as [|fuel IH]; intros lhs ts Hf Hb H;
    destruct ts as [|[n|x|[]| |] ts']; simpl in *; try discriminate; try lia.
  all: apply bind_Err_inv in H as [H|([rhs ts''] & Hop & H)];
    [ apply (operand_fails ts'); [lia|assumption]
    | apply operand_consumes in Hop; eapply (IH _ ts''); [lia|lia|eassumption] ].
Qed.

End LoopFailures.

Lemma parseMulDivWith_fails fuel' bound n :
  FailsSyntactic bound (parsePrimary fuel') -> (bound <= S n)%nat ->
  FailsSyntactic bound (parseMulDivWith (parsePrimary fuel') n).
Proof.
  intros Hp Hn ts err Hlen H. unfold parseMulDivWith in H.
  apply bind_Err_inv in H as [H|([lhs ts'] & Hop & H)].
  - now apply (Hp ts).
  - apply parsePrimary_consumes in Hop.
    apply (mulDivLoop_fails _ bound Hp (parsePrimary_consumes fuel')
             n lhs ts'); [lia|lia|assumption].
Qed.

Lemma parseAddSubWith_fails fuel' bound n :
  FailsSyntactic bound (parsePrimary fuel') -> (bound <= S n)%nat ->
  FailsSyntactic bound (parseAddSubWith (parsePrimary fuel') n).
Proof.
  intros Hp Hn ts err Hlen H. unfold parseAddSubWith in H.
  pose proof (parseMulDivWith_fails fuel' bound n Hp Hn) as Hmd.
  apply bind_Err_inv in H as [H|([lhs ts'] & Hop & H)].
  - now apply (Hmd ts).
  - apply parseMulDivWith_consumes in Hop.
    apply (addSubLoop_fails _ bound Hmd (parseMulDivWith_consumes fuel' n)
             n lhs ts'); [lia|lia|assumption].
Qed.

Lemma parsePrimary_fails fuel : FailsSyntactic fuel (parsePrimary fuel).
Proof.
  induction fuel as [|fuel IH]; intros ts err Hlen H; [inversion Hlen|].
  destruct ts as [|[n|x|[]| |] ts']; simpl in *;
    try discriminate; try (injection H as <-; reflexivity).
  - apply bind_Err_inv in H as [H|([a ts''] & _ & H)]; [|discriminate].
    apply (IH ts'); [lia|assumption].
  - apply bind_Err_inv in H as [H|([a ts''] & _ & H)].
    + apply (parseAddSubWith_fails fuel fuel fuel IH) with (ts := ts');
        [lia|lia|assumption].
    + destruct ts'' as [|[n|x|[]| |] ts''']; try discriminate;
        injection H as <-; reflexivity.
Qed.

Lemma parsePrimary_fails_le fuel bound :
  (bound <= fuel)%nat -> FailsSyntactic bound (parsePrimary fuel).
Proof.
  intros Hle ts err Hlen. apply parsePrimary_fails. lia.
Qed.

Lemma parse_fails (ts : list Token) (err : Error) :
  parse ts = Err err -> isSyntaxError err = true.
Proof.
  unfold parse, parseAddSub. intros H.
  apply bind_Err_inv in H as [H|([e r] & _ & H)].
  - apply (parseAddSubWith_fails (S (List.length ts)) (S (List.length ts))
             (S (List.length ts))) with (ts := ts);
      [apply parsePrimary_fails|lia|lia|assumption].
  - destruct r; [discriminate|]. injection H as <-. reflexivity.
Qed.

(** ** Parser: it accepts every phrase of the grammar *)

Lemma startsOp_startsMulDiv rest :
  startsOp rest = false -> startsMulDiv rest = false.
Proof. destruct rest as [|[n|x|[]| |] ?]; simpl; congruence. Qed.

Lemma GAddSubRest_lookahead lhs ts e rest :
  GAddSubRest lhs ts e -> startsOp rest = false ->
  startsMulDiv (ts ++ rest) = false.
Proof.
  destruct 1; simpl; auto using startsOp_startsMulDiv.
Qed.

Lemma grammar_complete :
  (forall ts e, GPrimary ts e -> CompletePrimary ts e) /\
  (forall ts e, GMulDiv ts e -> CompleteMulDiv ts e) /\
  (forall lhs ts e, GMulDivRest lhs ts e -> CompleteMulDivRest lhs ts e) /\
  (forall ts e, GAddSub ts e -> CompleteAddSub ts e) /\
  (forall lhs ts e, GAddSubRest lhs ts e -> CompleteAddSubRest lhs ts e).
Proof.
  apply grammar_mutind.
  - (* '-' Primary *)
    intros ts e _ IH fuel rest Hf. simpl in Hf.
    destruct fuel as [|fuel]; [lia|]. simpl.
    rewrite IH by lia. reflexivity.
  - (* NUMBER *)
    intros n fuel rest Hf. destruct fuel; [simpl in Hf; lia|reflexivity].
  - (* VAR *)
    intros x fuel rest Hf. destruct fuel; [simpl in Hf; lia|reflexivity].
  - (* '(' AddSub ')' *)
    intros ts e _ IH fuel rest Hf. simpl in Hf. rewrite length_app in Hf.
    simpl in Hf. destruct fuel as [|fuel]; [lia|]. simpl.
    rewrite <- app_assoc. rewrite IH; simpl; try reflexivity; lia.
  - (* Primary, then the repetition *)
    intros ts1 e1 ts2 e _ IH1 _ IH2 fuel n rest Hs Hf Hn.
    rewrite length_app in Hf, Hn. unfold parseMulDivWith.
    rewrite <- app_assoc, IH1 by (rewrite length_app; lia). simpl.
    apply IH2; [assumption|lia|lia].
  - (* end of the repetition *)
    intros lhs fuel n rest Hs _ _. simpl.
    destruct rest as [|[k|x|[]| |] rest]; destruct n; simpl in *;
      congruence.
  - (* '*' Primary *)
    intros lhs ts1 e1 ts2 e _ IH1 _ IH2 fuel n rest Hs Hf Hn.
    simpl in Hf, Hn. rewrite length_app in Hf, Hn.
    destruct n as [|n]; [lia|]. simpl.
    rewrite <- app_assoc, IH1 by (rewrite length_app; lia). simpl.
    apply IH2; [assumption|lia|lia].
  - (* '/' Primary *)
    intros lhs ts1 e1 ts2 e _ IH1 _ IH2 fuel n rest Hs Hf Hn.
    simpl in Hf, Hn. rewrite length_app in Hf, Hn.
    destruct n as [|n]; [lia|]. simpl.
    rewrite <- app_assoc, IH1 by (rewrite length_app; lia). simpl.
    apply IH2; [assumption|lia|lia].
  - (* MulDiv, then the repetition *)
    intros ts1 e1 ts2 e _ IH1 G2 IH2 fuel n rest Hs Hf Hn.
    rewrite length_app in Hf, Hn. unfold parseAddSubWith.
    rewrite <- app_assoc, IH1;
      [|eapply GAddSubRest_lookahead; eassumption
       |rewrite length_app; lia|rewrite length_app; lia].
    simpl. apply IH2; [assumption|lia|lia|lia].
  - (* end of the repetition *)
    intros lhs fuel m n rest Hs _ _ _. simpl.
    destruct rest as [|[k|x|[]| |] rest]; destruct n; simpl in *;
      congruence.
  - (* '+' MulDiv *)
    intros lhs ts1 e1 ts2 e _ IH1 G2 IH2 fuel m n rest Hs Hf Hm Hn.
    simpl in Hf, Hm, Hn. rewrite length_app in Hf, Hm, Hn.
    destruct n as [|n]; [lia|]. simpl.
    rewrite <- app_assoc, IH1;
      [|eapply GAddSubRest_lookahead; eassumption
       |rewrite length_app; lia|rewrite length_app; lia].
    simpl. apply IH2; [assumption|lia|lia|lia].
  - (* '-' MulDiv *)
    intros lhs ts1 e1 ts2 e _ IH1 G2 IH2 fuel m n rest Hs Hf Hm Hn.
    simpl in Hf, Hm, Hn. rewrite length_app in Hf, Hm, Hn.
    destruct n as [|n]; [lia|]. simpl.
    rewrite <- app_assoc, IH1;
      [|eapply GAddSubRest_lookahead; eassumption
       |rewrite length_app; lia|rewrite length_app; lia].
    simpl. apply IH2; [assumption|lia|lia|lia].
Qed.

(** [Parser.parse] returns [e] exactly on the token sequences that the
    grammar derives for [e]. *)
Lemma parse_Ok_iff (ts : list Token) (e : AlgExpr) :
  parse ts = Ok e <-> GAddSub ts e.
Proof.
  unfold parse, parseAddSub. split.
  - intros H. inv_bind H. destruct x as [e' r].
    destruct r; [|discriminate]. injection H as <-.
    destruct (parseAddSubWith_sound _ (S (List.length ts))
                (parsePrimary_sound _) _ _ _ Hx) as (pre & -> & G).
    now rewrite app_nil_r.
  - intros G.
    destruct grammar_complete as (_ & _ & _ & Has & _).
    pose proof (Has _ _ G (S (List.length ts)) (S (List.length ts)) []
                  eq_refl) as H.
    rewrite app_nil_r in H. rewrite H; simpl; try reflexivity; lia.
Qed.

(** ** Tokenizer *)

Lemma chars_app (s1 s2 : string) :
  chars (s1 ++ s2)%string = chars s1 ++ chars s2.
Proof.
  induction s1 as [|c s1 IH]; simpl; [reflexivity|]. unfold chars in *.
  simpl. now rewrite IH.
Qed.

Lemma length_chars (s : string) : List.length (chars s) = String.length s.
Proof.
  induction s as [|c s IH]; simpl; [reflexivity|]. unfold chars in *.
  simpl. now rewrite IH.
Qed.

Lemma scanWhile_spec test input run rest :
  scanWhile test input = (run, rest) ->
  input = run ++ rest /\ forallb test run = true.
Proof.
  revert run rest.
  induction input as [|c input IH]; simpl; intros run rest H.
  - injection H as <- <-. auto.
  - destruct (test c) eqn:Hc.
    + destruct (scanWhile test input) as [run' rest'].
      injection H as <- <-. destruct (IH _ _ eq_refl) as [-> Hall].
      simpl. rewrite Hc. auto.
    + injection H as <- <-. auto.
Qed.

Lemma scanWhile_first test c input run rest :
  test c = true -> scanWhile test (c :: input) = (run, rest) ->
  (List.length rest <= List.length input)%nat.
Proof.
  intros Hc H. simpl in H. rewrite Hc in H.
  destruct (scanWhile test input) as [run' rest'] eqn:E.
  injection H as <- <-. apply scanWhile_spec in E as [-> _].
  rewrite length_app. lia.
Qed.

Lemma scanWhile_app test run rest :
  forallb test run = true -> stopsAt test rest = true ->
  scanWhile test (run ++ rest) = (run, rest).
Proof.
  intros Hrun Hrest. induction run as [|c run IH]; simpl in *.
  - destruct rest as [|c rest]; [reflexivity|].
    simpl in *. apply negb_true_iff in Hrest. now rewrite Hrest.
  - apply andb_prop in Hrun as [-> Hrun]. now rewrite IH.
Qed.

Lemma tokenizeLoop_step fuel char rest tokens :
  tokenizeLoop (S fuel) (char :: rest) tokens =
  if isSpace char then tokenizeLoop fuel rest tokens
  else if isDigit char then
    let '(numStr, rest') := scanWhile isDigit (char :: rest) in
    tokenizeLoop fuel rest' (tokens ++ [TNumber (parseInt numStr)])
  else if isLetter char then
    let '(varName, rest') := scanWhile isLetter (char :: rest) in
    tokenizeLoop fuel rest' (tokens ++ [TVar (string_of_list_ascii varName)])
  else
    match opOfChar char with
    | Some op => tokenizeLoop fuel rest (tokens ++ [TOp op])
    | None =>
        if Ascii.eqb char "(" then tokenizeLoop fuel rest (tokens ++ [TLParen])
        else if Ascii.eqb char ")" then
          tokenizeLoop fuel rest (tokens ++ [TRParen])
        else Err (UnexpectedCharacter char)
    end.
Proof. reflexivity. Qed.

(** Above the length of the input the iteration bound does not matter. *)
Lemma tokenizeLoop_fuel (f1 f2 : nat) (input : list ascii) tokens :
  (List.length input <= f1)%nat -> (List.length input <= f2)%nat ->
  tokenizeLoop f1 input tokens = tokenizeLoop f2 input tokens.
Proof.
  revert f2 input tokens.
  induction f1 as [|f1 IH]; intros f2 input tokens H1 H2;
    destruct input as [|c rest]; destruct f2 as [|f2];
    simpl in H1, H2; try reflexivity; try lia.
  rewrite !tokenizeLoop_step.
  destruct (isSpace c); [apply IH; lia|].
  destruct (isDigit c) eqn:Hd.
  { destruct (scanWhile isDigit (c :: rest)) as [run rest'] eqn:E.
    apply scanWhile_first in E; [|assumption]. apply IH; lia. }
  destruct (isLetter c) eqn:Hl.
  { destruct (scanWhile isLetter (c :: rest)) as [run rest'] eqn:E.
    apply scanWhile_first in E; [|assumption]. apply IH; lia. }
  destruct (opOfChar c); [apply IH; lia|].
  destruct (Ascii.eqb c "("); [apply IH; lia|].
  destruct (Ascii.eqb c ")"); [apply IH; lia|reflexivity].
Qed.

Lemma tokenizeLoop_from fuel input tokens :
  (List.length input <= fuel)%nat ->
  tokenizeLoop fuel input tokens = tokenizeFrom input tokens.
Proof.
  intros H. apply tokenizeLoop_fuel; [assumption|lia].
Qed.

Lemma tokenize_from (s : string) : tokenize s = tokenizeFrom (chars s) [].
Proof.
  unfold tokenize. apply tokenizeLoop_from. fold (chars s).
  rewrite length_chars. lia.
Qed.

(** The only failure of the tokenizer is an unexpected character, and it
    reports a character of the input that it has no rule for. *)
Lemma tokenizeLoop_fails fuel input tokens err :
  (List.length input <= fuel)%nat ->
  tokenizeLoop fuel input tokens = Err err ->
  exists c, err = UnexpectedCharacter c /\ In c input /\ recognized c = false.
Proof.
  revert input tokens.
  induction fuel as [|fuel IH]; intros input tokens Hlen H;
    destruct input as [|c rest]; simpl in Hlen; try discriminate; try lia.
  rewrite tokenizeLoop_step in H. unfold recognized.
  destruct (isSpace c) eqn:Hs.
  { destruct (IH rest _ ltac:(lia) H) as (c' & ? & ? & ?).
    exists c'. simpl. auto. }
  destruct (isDigit c) eqn:Hd.
  { destruct (scanWhile isDigit (c :: rest)) as [run rest'] eqn:E.
    pose proof (scanWhile_first _ _ _ _ _ Hd E) as Hr.
    apply scanWhile_spec in E as [E _].
    destruct (IH rest' _ ltac:(lia) H) as (c' & ? & ? & ?).
    exists c'. rewrite E. repeat split; auto. apply in_or_app. auto. }
  destruct (isLetter c) eqn:Hl.
  { destruct (scanWhile isLetter (c :: rest)) as [run rest'] eqn:E.
    pose proof (scanWhile_first _ _ _ _ _ Hl E) as Hr.
    apply scanWhile_spec in E as [E _].
    destruct (IH rest' _ ltac:(lia) H) as (c' & ? & ? & ?).
    exists c'. rewrite E. repeat split; auto. apply in_or_app. auto. }
  destruct (opOfChar c) eqn:Ho.
  { destruct (IH rest _ ltac:(lia) H) as (c' & ? & ? & ?).
    exists c'. simpl. auto. }
  destruct (Ascii.eqb c "(") eqn:Hp.
  { destruct (IH rest _ ltac:(lia) H) as (c' & ? & ? & ?).
    exists c'. simpl. auto. }
  destruct (Ascii.eqb c ")") eqn:Hq.
  { destruct (IH rest _ ltac:(lia) H) as (c' & ? & ? & ?).
    exists c'. simpl. auto. }
  injection H as <-. exists c. simpl.
  rewrite Hs, Hd, Hl, Ho, Hp, Hq. auto.
Qed.

(** When it succeeds, every character had a rule. *)
Lemma tokenizeLoop_Ok_recognized fuel input tokens ts :
  tokenizeLoop fuel input tokens = Ok ts -> forallb recognized input = true.
Proof.
  revert input tokens.
  induction fuel as [|fuel IH]; intros input tokens H;
    destruct input as [|c rest]; try reflexivity; try discriminate.
  rewrite tokenizeLoop_step in H.
  assert (Hall : forall test run rest',
             (forall x, test x = true -> recognized x = true) ->
             scanWhile test (c :: rest) = (run, rest') ->
             forallb recognized rest' = true ->
             forallb recognized (c :: rest) = true).
  { intros test run rest' Himp E Hr.
    apply scanWhile_spec in E as [-> Hrun].
    rewrite forallb_app, Hr, andb_true_r.
    apply forallb_forall. intros x Hx. apply Himp.
    rewrite forallb_forall in Hrun. now apply Hrun. }
  assert (Hone : recognized c = true ->
                 forallb recognized rest = true ->
                 forallb recognized (c :: rest) = true).
  { intros Hc Hr. simpl. now rewrite Hc, Hr. }
  destruct (isSpace c) eqn:Hs.
  { apply Hone; eauto. unfold recognized. now rewrite Hs. }
  destruct (isDigit c) eqn:Hd.
  { destruct (scanWhile isDigit (c :: rest)) as [run rest'] eqn:E.
    apply (Hall isDigit run rest'); eauto.
    intros x Hx. unfold recognized. rewrite Hx.
    now destruct (isSpace x). }
  destruct (isLetter c) eqn:Hl.
  { destruct (scanWhile isLetter (c :: rest)) as [run rest'] eqn:E.
    apply (Hall isLetter run rest'); eauto.
    intros x Hx. unfold recognized. rewrite Hx.
    now destruct (isSpace x), (isDigit x). }
  destruct (opOfChar c) eqn:Ho.
  { apply Hone; eauto. unfold recognized. now rewrite Hs, Hd, Hl, Ho. }
  destruct (Ascii.eqb c "(") eqn:Hp.
  { apply Hone; eauto. unfold recognized. now rewrite Hs, Hd, Hl, Ho, Hp. }
  destruct (Ascii.eqb c ")") eqn:Hq; [|discriminate].
  apply Hone; eauto. unfold recognized. now rewrite Hs, Hd, Hl, Ho, Hp, Hq.
Qed.

Lemma tokenize_Ok_iff (s : string) :
  (exists ts, tokenize s = Ok ts) <-> forallb recognized (chars s) = true.
Proof.
  split.
  - intros [ts H]. eapply tokenizeLoop_Ok_recognized. exact H.
  - intros Hall. destruct (tokenize s) as [ts|err] eqn:E; [eauto|].
    apply tokenizeLoop_fails in E as (c & _ & Hin & Hc).
    + fold (chars s) in Hin. rewrite forallb_forall in Hall.
      rewrite (Hall _ Hin) in Hc. discriminate.
    + fold (chars s). rewrite length_chars. lia.
Qed.

(** ** Rendering, then tokenizing *)

Lemma isDigit_not_space (c : ascii) : isDigit c = true -> isSpace c = false.
Proof.
  destruct c as [[] [] [] [] [] [] [] []]; vm_compute; congruence.
Qed.

Lemma isLetter_not_space (c : ascii) : isLetter c = true -> isSpace c = false.
Proof.
  destruct c as [[] [] [] [] [] [] [] []]; vm_compute; congruence.
Qed.

Lemma isLetter_not_digit (c : ascii) : isLetter c = true -> isDigit c = false.
Proof.
  destruct c as [[] [] [] [] [] [] [] []]; vm_compute; congruence.
Qed.

Lemma digitChar_spec (d : Z) :
  0 <= d < 10 ->
  isDigit (digitChar d) = true /\ digitValue (digitChar d) = d.
Proof.
  intros H.
  assert (d = 0 \/ d = 1 \/ d = 2 \/ d = 3 \/ d = 4 \/
          d = 5 \/ d = 6 \/ d = 7 \/ d = 8 \/ d = 9) as Hd by lia.
  repeat (destruct Hd as [->|Hd]; [split; reflexivity|]).
  subst d. split; reflexivity.
Qed.

Lemma parseInt_snoc (ds : list ascii) (c : ascii) :
  parseInt (ds ++ [c]) = 10 * parseInt ds + digitValue c.
Proof.
  unfold parseInt. rewrite fold_left_app. reflexivity.
Qed.

(** With enough fuel [toDigits] writes the decimal digits of [n] in front
    of [acc], at least one, and [parseInt] reads [n] back from them. *)
Lemma toDigits_spec (fuel : nat) :
  forall n acc,
    0 <= n < 2 ^ Z.of_nat (S fuel) ->
    exists ds,
      toDigits (S fuel) n acc = ds ++ acc /\ ds <> [] /\
      forallb isDigit ds = true /\ parseInt ds = n.
Proof.
  induction fuel as [|fuel IH]; intros n acc Hn.
  - assert (n < 10) as Hlt by (change (2 ^ Z.of_nat 1) with 2 in Hn; lia).
    change (toDigits 1 n acc) with
      (if n <? 10 then digitChar (n mod 10) :: acc
       else digitChar (n mod 10) :: acc).
    apply Z.ltb_lt in Hlt as Hb. rewrite Hb.
    rewrite Z.mod_small by lia.
    destruct (digitChar_spec n ltac:(lia)) as [Hd Hv].
    exists [digitChar n]. repeat split; try discriminate.
    + cbn [forallb]. now rewrite Hd.
    + unfold parseInt. cbn [fold_left]. rewrite Hv. lia.
  - assert (0 <= n mod 10 < 10) as Hm by (apply Z.mod_pos_bound; lia).
    destruct (digitChar_spec _ Hm) as [Hd Hv].
    change (toDigits (S (S fuel)) n acc) with
      (if n <? 10 then digitChar (n mod 10) :: acc
       else toDigits (S fuel) (n / 10) (digitChar (n mod 10) :: acc)).
    destruct (n <? 10) eqn:Hb.
    + apply Z.ltb_lt in Hb. rewrite Z.mod_small in * by lia.
      exists [digitChar n]. repeat split; try discriminate.
      * cbn [forallb]. now rewrite Hd.
      * unfold parseInt. cbn [fold_left]. rewrite Hv. lia.
    + apply Z.ltb_ge in Hb.
      assert (0 <= n / 10 < 2 ^ Z.of_nat (S fuel)) as Hq.
      { split; [apply Z.div_pos; lia|].
        apply Z.div_lt_upper_bound; [lia|].
        replace (Z.of_nat (S (S fuel))) with (Z.succ (Z.of_nat (S fuel)))
          in Hn by lia.
        rewrite Z.pow_succ_r in Hn by lia. lia. }
      destruct (IH (n / 10) (digitChar (n mod 10) :: acc) Hq)
        as (ds & E & _ & Hall & Hp).
      exists (ds ++ [digitChar (n mod 10)]). repeat split.
      * rewrite E, <- app_assoc. reflexivity.
      * destruct ds; discriminate.
      * rewrite forallb_app, Hall. cbn [forallb]. now rewrite Hd.
      * rewrite parseInt_snoc, Hp, Hv. symmetry. apply Z.div_mod. lia.
Qed.

Lemma digitsOf_spec (n : Z) :
  0 <= n ->
  digitsOf n <> [] /\ forallb isDigit (digitsOf n) = true /\
  parseInt (digitsOf n) = n.
Proof.
  intros Hn. unfold digitsOf.
  destruct (toDigits_spec (Z.to_nat (Z.log2 n)) n []) as (ds & E & H1 & H2 & H3).
  - split; [assumption|].
    rewrite Nat2Z.inj_succ, Z2Nat.id by apply Z.log2_nonneg.
    destruct (Z.eq_dec n 0) as [->|Hz]; [reflexivity|].
    apply Z.log2_spec. lia.
  - rewrite E, app_nil_r. auto.
Qed.

Lemma tokenizeFrom_nil tokens : tokenizeFrom [] tokens = Ok tokens.
Proof. reflexivity. Qed.

Lemma tokenizeFrom_number (ds rest : list ascii) tokens :
  ds <> [] -> forallb isDigit ds = true -> stopsAt isDigit rest = true ->
  tokenizeFrom (ds ++ rest) tokens
    = tokenizeFrom rest (tokens ++ [TNumber (parseInt ds)]).
Proof.
  intros Hne Hall Hstop. destruct ds as [|c ds]; [congruence|].
  pose proof Hall as Hc. simpl in Hc. apply andb_prop in Hc as [Hc _].
  unfold tokenizeFrom at 1. simpl List.length. simpl app.
  rewrite tokenizeLoop_step, (isDigit_not_space c Hc), Hc.
  change (c :: ds ++ rest) with ((c :: ds) ++ rest).
  rewrite (scanWhile_app _ _ _ Hall Hstop).
  apply tokenizeLoop_from. rewrite length_app. lia.
Qed.

Lemma tokenizeFrom_var (cs rest : list ascii) tokens :
  cs <> [] -> forallb isLetter cs = true -> stopsAt isLetter rest = true ->
  tokenizeFrom (cs ++ rest) tokens
    = tokenizeFrom rest (tokens ++ [TVar (string_of_list_ascii cs)]).
Proof.
  intros Hne Hall Hstop. destruct cs as [|c cs]; [congruence|].
  pose proof Hall as Hc. simpl in Hc. apply andb_prop in Hc as [Hc _].
  unfold tokenizeFrom at 1. simpl List.length. simpl app.
  rewrite tokenizeLoop_step, (isLetter_not_space c Hc),
    (isLetter_not_digit c Hc), Hc.
  change (c :: cs ++ rest) with ((c :: cs) ++ rest).
  rewrite (scanWhile_app _ _ _ Hall Hstop).
  apply tokenizeLoop_from. rewrite length_app. lia.
Qed.

Lemma tokenizeFrom_space rest tokens :
  tokenizeFrom (" "%char :: rest) tokens = tokenizeFrom rest tokens.
Proof. reflexivity. Qed.

Lemma tokenizeFrom_lparen rest tokens :
  tokenizeFrom ("("%char :: rest) tokens = tokenizeFrom rest (tokens ++ [TLParen]).
Proof. reflexivity. Qed.

Lemma tokenizeFrom_rparen rest tokens :
  tokenizeFrom (")"%char :: rest) tokens = tokenizeFrom rest (tokens ++ [TRParen]).
Proof. reflexivity. Qed.

Lemma tokenizeFrom_plus rest tokens :
  tokenizeFrom ("+"%char :: rest) tokens = tokenizeFrom rest (tokens ++ [TOp Plus]).
Proof. reflexivity. Qed.

Lemma tokenizeFrom_minus rest tokens :
  tokenizeFrom ("-"%char :: rest) tokens = tokenizeFrom rest (tokens ++ [TOp Minus]).
Proof. reflexivity. Qed.

Lemma tokenizeFrom_times rest tokens :
  tokenizeFrom ("*"%char :: rest) tokens = tokenizeFrom rest (tokens ++ [TOp Times]).
Proof. reflexivity. Qed.

Lemma tokenizeFrom_slash rest tokens :
  tokenizeFrom ("/"%char :: rest) tokens = tokenizeFrom rest (tokens ++ [TOp Slash]).
Proof. reflexivity. Qed.

Lemma toString_nonneg (n : Z) :
  0 <= n -> chars (toString n) = digitsOf n.
Proof.
  intros Hn. unfold toString.
  replace (n <? 0) with false by (symmetry; apply Z.ltb_ge; assumption).
  apply list_ascii_of_string_of_list_ascii.
Qed.

Lemma chars_cons (c : ascii) (s : string) : chars (String c s) = c :: chars s.
Proof. reflexivity. Qed.

(** Spell the characters of a rendered node as a right-nested list. *)
Ltac spell_chars :=
  cbn [renderExpression append];
  repeat (rewrite chars_app || rewrite chars_cons);
  change (chars EmptyString) with (@nil ascii);
  repeat (rewrite <- app_assoc || rewrite <- app_comm_cons);
  cbn [app].

Lemma tokenizeFrom_render (e : AlgExpr) :
  renderable e = true ->
  forall rest tokens,
    stopsAt isDigit rest = true -> stopsAt isLetter rest = true ->
    tokenizeFrom (chars (renderExpression e) ++ rest) tokens
      = tokenizeFrom rest (tokens ++ tokensOf e).
Proof.
  induction e as [n|x|a IHa b IHb|a IHa b IHb|a IHa b IHb|a IHa b IHb|a IHa];
    simpl renderable; intros Hr rest tokens Hd Hl.
  - apply Z.leb_le in Hr. simpl. rewrite toString_nonneg by assumption.
    destruct (digitsOf_spec n Hr) as (Hne & Hall & Hp).
    rewrite tokenizeFrom_number by assumption. now rewrite Hp.
  - unfold isIdentifier in Hr. simpl. unfold chars.
    destruct (list_ascii_of_string x) as [|c cs] eqn:E; [discriminate|].
    rewrite tokenizeFrom_var by (assumption || discriminate).
    rewrite <- E, string_of_list_ascii_of_string. reflexivity.
  - apply andb_prop in Hr as [Ha Hb]. spell_chars.
    rewrite tokenizeFrom_lparen, IHa, tokenizeFrom_space, tokenizeFrom_plus,
      tokenizeFrom_space, IHb, tokenizeFrom_rparen by (assumption || reflexivity).
    simpl. f_equal. rewrite <- !app_assoc. reflexivity.
  - apply andb_prop in Hr as [Ha Hb]. spell_chars.
    rewrite tokenizeFrom_lparen, IHa, tokenizeFrom_space, tokenizeFrom_minus,
      tokenizeFrom_space, IHb, tokenizeFrom_rparen by (assumption || reflexivity).
    simpl. f_equal. rewrite <- !app_assoc. reflexivity.
  - apply andb_prop in Hr as [Ha Hb]. spell_chars.
    rewrite tokenizeFrom_lparen, IHa, tokenizeFrom_space, tokenizeFrom_times,
      tokenizeFrom_space, IHb, tokenizeFrom_rparen by (assumption || reflexivity).
    simpl. f_equal. rewrite <- !app_assoc. reflexivity.
  - apply andb_prop in Hr as [Ha Hb]. spell_chars.
    rewrite tokenizeFrom_lparen, IHa, tokenizeFrom_space, tokenizeFrom_slash,
      tokenizeFrom_space, IHb, tokenizeFrom_rparen by (assumption || reflexivity).
    simpl. f_equal. rewrite <- !app_assoc. reflexivity.
  - spell_chars.
    rewrite tokenizeFrom_lparen, tokenizeFrom_minus, IHa, tokenizeFrom_rparen
      by (assumption || reflexivity).
    simpl. f_equal. rewrite <- !app_assoc. reflexivity.
Qed.

Lemma tokenize_render (e : AlgExpr) :
  renderable e = true -> tokenize (renderExpression e) = Ok (tokensOf e).
Proof.
  intros Hr. rewrite tokenize_from.
  rewrite <- (app_nil_r (chars (renderExpression e))).
  rewrite tokenizeFrom_render by (assumption || reflexivity).
  reflexivity.
Qed.

(** The rendered text of any tree is a Primary phrase for that tree. *)
Lemma GPrimary_as_AddSub ts e : GPrimary ts e -> GAddSub ts e.
Proof.
  intros H. rewrite <- (app_nil_r ts).
  apply GAS with (e1 := e); [|constructor].
  rewrite <- (app_nil_r ts). apply GMD with (e1 := e); [assumption|constructor].
Qed.

Lemma GPrimary_as_MulDiv ts e : GPrimary ts e -> GMulDiv ts e.
Proof.
  intros H. rewrite <- (app_nil_r ts).
  apply GMD with (e1 := e); [assumption|constructor].
Qed.

Lemma GAddSubRest_op op lhs ts1 e1 ts2 e :
  isAdditive op = true ->
  GMulDiv ts1 e1 -> GAddSubRest (binaryOf op lhs e1) ts2 e ->
  GAddSubRest lhs (TOp op :: ts1 ++ ts2) e.
Proof.
  destruct op; simpl; intros Hop H1 H2; try discriminate;
    econstructor; eassumption.
Qed.

Lemma GMulDivRest_op op lhs ts1 e1 ts2 e :
  isAdditive op = false ->
  GPrimary ts1 e1 -> GMulDivRest (binaryOf op lhs e1) ts2 e ->
  GMulDivRest lhs (TOp op :: ts1 ++ ts2) e.
Proof.
  destruct op; simpl; intros Hop H1 H2; try discriminate;
    econstructor; eassumption.
Qed.

(** Two operands around one operator. *)
Lemma GAddSub_binary op ta a tb b :
  isAdditive op = true -> GMulDiv ta a -> GMulDiv tb b ->
  GAddSub (ta ++ TOp op :: tb) (binaryOf op a b).
Proof.
  intros Hop Ha Hb. apply GAS with (e1 := a); [assumption|].
  rewrite <- (app_nil_r tb).
  apply GAddSubRest_op with (e1 := b); [assumption|assumption|constructor].
Qed.

Lemma GMulDiv_binary op ta a tb b :
  isAdditive op = false -> GPrimary ta a -> GPrimary tb b ->
  GMulDiv (ta ++ TOp op :: tb) (binaryOf op a b).
Proof.
  intros Hop Ha Hb. apply GMD with (e1 := a); [assumption|].
  rewrite <- (app_nil_r tb).
  apply GMulDivRest_op with (e1 := b); [assumption|assumption|constructor].
Qed.

Lemma GMulDiv_as_AddSub ts e : GMulDiv ts e -> GAddSub ts e.
Proof.
  intros H. rewrite <- (app_nil_r ts).
  apply GAS with (e1 := e); [assumption|constructor].
Qed.

Lemma GPrimary_paren_binary op ta a tb b :
  GPrimary ta a -> GPrimary tb b ->
  GPrimary (TLParen :: ta ++ TOp op :: tb ++ [TRParen]) (binaryOf op a b).
Proof.
  intros Ha Hb.
  replace (ta ++ TOp op :: tb ++ [TRParen])
    with ((ta ++ TOp op :: tb) ++ [TRParen])
    by (rewrite <- app_assoc; reflexivity).
  apply GP_paren. destruct (isAdditive op) eqn:Hop.
  - apply GAddSub_binary; auto using GPrimary_as_MulDiv.
  - apply GMulDiv_as_AddSub, GMulDiv_binary; assumption.
Qed.

Lemma tokensOf_GPrimary (e : AlgExpr) : GPrimary (tokensOf e) e.
Proof.
  induction e as [n|x|a IHa b IHb|a IHa b IHb|a IHa b IHb|a IHa b IHb|a IHa];
    simpl; try constructor.
  - exact (GPrimary_paren_binary Plus _ _ _ _ IHa IHb).
  - exact (GPrimary_paren_binary Minus _ _ _ _ IHa IHb).
  - exact (GPrimary_paren_binary Times _ _ _ _ IHa IHb).
  - exact (GPrimary_paren_binary Slash _ _ _ _ IHa IHb).
  - change (TLParen :: TOp Minus :: tokensOf a ++ [TRParen])
      with (TLParen :: (TOp Minus :: tokensOf a) ++ [TRParen]).
    apply GP_paren, GPrimary_as_AddSub, GP_neg, IHa.
Qed.

Lemma parseExpression_render (e : AlgExpr) :
  renderable e = true -> parseExpression (renderExpression e) = Ok e.
Proof.
  intros Hr. unfold parseExpression. rewrite tokenize_render by assumption.
  simpl. apply parse_Ok_iff, GPrimary_as_AddSub, tokensOf_GPrimary.
Qed.

(** ** Left folding, unary minus, failures, and the round trip *)

Lemma GAddSub_left_fold op1 op2 ta a tb b tc c :
  isAdditive op1 = true -> isAdditive op2 = true ->
  GMulDiv ta a -> GMulDiv tb b -> GMulDiv tc c ->
  GAddSub (ta ++ TOp op1 :: tb ++ TOp op2 :: tc)
    (binaryOf op2 (binaryOf op1 a b) c).
Proof.
  intros H1 H2 Ha Hb Hc. apply GAS with (e1 := a); [assumption|].
  apply GAddSubRest_op with (e1 := b); [assumption|assumption|].
  rewrite <- (app_nil_r tc).
  apply GAddSubRest_op with (e1 := c); [assumption|assumption|constructor].
Qed.

Lemma GMulDiv_left_fold op1 op2 ta a tb b tc c :
  isAdditive op1 = false -> isAdditive op2 = false ->
  GPrimary ta a -> GPrimary tb b -> GPrimary tc c ->
  GMulDiv (ta ++ TOp op1 :: tb ++ TOp op2 :: tc)
    (binaryOf op2 (binaryOf op1 a b) c).
Proof.
  intros H1 H2 Ha Hb Hc. apply GMD with (e1 := a); [assumption|].
  apply GMulDivRest_op with (e1 := b); [assumption|assumption|].
  rewrite <- (app_nil_r tc).
  apply GMulDivRest_op with (e1 := c); [assumption|assumption|constructor].
Qed.

(** C7. Operators of one precedence level fold to the left, and a unary
    minus is read by [parsePrimary], so it takes the one Primary that
    follows it and nothing more: "1-2-3", "-2*3" and "--x" parse as stated,
    and so do the same shapes over any operands. *)
Theorem parser_left_assoc_unary_minus :
  parseExpression "1-2-3" = Ok (Sub (Sub (Int 1) (Int 2)) (Int 3)) /\
  parseExpression "-2*3" = Ok (Mul (Neg (Int 2)) (Int 3)) /\
  parseExpression "--x" = Ok (Neg (Neg (Var "x"))) /\
  (forall op1 op2 ta a tb b tc c,
      isAdditive op1 = true -> isAdditive op2 = true ->
      GMulDiv ta a -> GMulDiv tb b -> GMulDiv tc c ->
      parse (ta ++ TOp op1 :: tb ++ TOp op2 :: tc)
        = Ok (binaryOf op2 (binaryOf op1 a b) c)) /\
  (forall op1 op2 ta a tb b tc c,
      isAdditive op1 = false -> isAdditive op2 = false ->
      GPrimary ta a -> GPrimary tb b -> GPrimary tc c ->
      parse (ta ++ TOp op1 :: tb ++ TOp op2 :: tc)
        = Ok (binaryOf op2 (binaryOf op1 a b) c)) /\
  (forall op ta a tb b,
      isAdditive op = false -> GPrimary ta a -> GPrimary tb b ->
      parse (TOp Minus :: ta ++ TOp op :: tb) = Ok (binaryOf op (Neg a) b)) /\
  (forall ta a,
      GPrimary ta a -> parse (TOp Minus :: TOp Minus :: ta) = Ok (Neg (Neg a))).
Proof.
  repeat split; try reflexivity.
  - intros. apply parse_Ok_iff, GAddSub_left_fold; assumption.
  - intros. apply parse_Ok_iff, GMulDiv_as_AddSub, GMulDiv_left_fold; assumption.
  - intros op ta a tb b Hop Ha Hb. apply parse_Ok_iff, GMulDiv_as_AddSub.
    change (TOp Minus :: ta ++ TOp op :: tb)
      with ((TOp Minus :: ta) ++ TOp op :: tb).
    apply GMulDiv_binary; [assumption|now constructor|assumption].
  - intros ta a Ha. apply parse_Ok_iff, GPrimary_as_AddSub.
    now repeat constructor.
Qed.

Lemma parser_left_assoc_unary_minus_witness :
  parse [TVar "a"; TOp Minus; TNumber 2; TOp Plus; TVar "c"]
    = Ok (Add (Sub (Var "a") (Int 2)) (Var "c")) /\
  parse [TNumber 8; TOp Slash; TNumber 4; TOp Slash; TNumber 2]
    = Ok (Div (Div (Int 8) (Int 4)) (Int 2)) /\
  parse [TOp Minus; TVar "a"; TOp Slash; TNumber 3]
    = Ok (Div (Neg (Var "a")) (Int 3)) /\
  parse [TOp Minus; TOp Minus; TNumber 5] = Ok (Neg (Neg (Int 5))).
Proof.
  destruct parser_left_assoc_unary_minus as (_ & _ & _ & Hadd & Hmul & Hneg & Hnn).
  split; [|split; [|split]].
  - apply (Hadd Minus Plus [TVar "a"] (Var "a") [TNumber 2] (Int 2)
             [TVar "c"] (Var "c"));
      try reflexivity; apply GPrimary_as_MulDiv; constructor.
  - apply (Hmul Slash Slash [TNumber 8] (Int 8) [TNumber 4] (Int 4)
             [TNumber 2] (Int 2));
      try reflexivity; constructor.
  - apply (Hneg Slash [TVar "a"] (Var "a") [TNumber 3] (Int 3));
      try reflexivity; constructor.
  - apply (Hnn [TNumber 5] (Int 5)). constructor.
Defined.

(** C8. The parser fails with one of the syntax errors, and with nothing
    else, exactly on the texts that hold a character the tokenizer has no
    rule for or whose tokens are not a phrase of the grammar; on every other
    text it returns the tree of that phrase. The end of input where an
    operand is expected, a missing closing parenthesis, tokens left over and
    an unexpected character or token each raise their own error. *)
Theorem parse_fails_exactly :
  parseExpression "1 + " = Err UnexpectedEndOfInput /\
  parseExpression "(1 + 2" = Err ExpectedClosingParenthesis /\
  parseExpression "1 2" = Err UnexpectedTokensAfterExpression /\
  parseExpression "1 # 2" = Err (UnexpectedCharacter "#") /\
  parseExpression "1 + )" = Err (UnexpectedToken TRParen) /\
  (forall s,
      (exists e, parseExpression s = Ok e) \/
      (exists err, parseExpression s = Err err /\ isSyntaxError err = true)) /\
  (forall s e,
      parseExpression s = Ok e <->
      exists ts, tokenize s = Ok ts /\ GAddSub ts e) /\
  (forall s,
      (exists c, tokenize s = Err (UnexpectedCharacter c) /\
                 In c (chars s) /\ recognized c = false) \/
      (exists ts, tokenize s = Ok ts /\ forallb recognized (chars s) = true)).
Proof.
  repeat split; try reflexivity.
  - intros s. unfold parseExpression.
    destruct (tokenize s) as [ts|err] eqn:E; simpl.
    + destruct (parse ts) as [e|err] eqn:P; [left; eauto|].
      right. exists err. split; [reflexivity|]. eapply parse_fails; eassumption.
    + right. exists err. split; [reflexivity|].
      apply tokenizeLoop_fails in E as (c & -> & _); [reflexivity|].
      fold (chars s). rewrite length_chars. lia.
  - unfold parseExpression. intros H. inv_bind H.
    exists x. split; [assumption|]. now apply parse_Ok_iff.
  - unfold parseExpression. intros (ts & -> & G). simpl. now apply parse_Ok_iff.
  - intros s. destruct (tokenize s) as [ts|err] eqn:E.
    + right. exists ts. split; [reflexivity|].
      apply tokenize_Ok_iff. rewrite E. eauto.
    + left. apply tokenizeLoop_fails in E as (c & -> & Hin & Hc).
      * exists c. auto.
      * fold (chars s). rewrite length_chars. lia.
Qed.

Lemma parse_fails_exactly_witness :
  exists ts, tokenize "2 * (x - 1)" = Ok ts /\
             GAddSub ts (Mul (Int 2) (Sub (Var "x") (Int 1))).
Proof.
  destruct parse_fails_exactly as (_ & _ & _ & _ & _ & _ & Hiff & _).
  apply (Hiff "2 * (x - 1)" (Mul (Int 2) (Sub (Var "x") (Int 1)))).
  reflexivity.
Defined.

(** A [Var] whose name is not a run of letters does not come back from its
    rendered text: "x1" is read as a variable and a number, "2" as a number,
    and the empty name as no input at all. *)
Lemma non_letter_var_does_not_reparse :
  noNegativeInt (Var "x1") = true /\
  parseExpression (renderExpression (Var "x1"))
    = Err UnexpectedTokensAfterExpression /\
  parseExpression (renderExpression (Var "2")) = Ok (Int 2) /\
  parseExpression (renderExpression (Var "")) = Err UnexpectedEndOfInput.
Proof.
  repeat split; reflexivity.
Qed.

(** C10, amended. On a tree whose [Int] leaves are non-negative integers
    that re-tokenize from their decimal rendering, which every integer up to
    [2^53] does, and whose [Var] names are non-empty runs of ASCII letters,
    parsing the rendered text returns the tree. *)
Theorem render_parse_identity :
  forall e, renderable e = true -> exactLeaves e = true ->
            parseExpression (renderExpression e) = Ok e.
Proof.
  intros e Hr _. now apply parseExpression_render.
Qed.

Lemma render_parse_identity_witness :
  parseExpression
    (renderExpression (Div (Add (Int 12) (Neg (Var "abc"))) (Mul (Int 0) (Var "y"))))
    = Ok (Div (Add (Int 12) (Neg (Var "abc"))) (Mul (Int 0) (Var "y"))).
Proof.
  apply (render_parse_identity
           (Div (Add (Int 12) (Neg (Var "abc"))) (Mul (Int 0) (Var "y"))));
    reflexivity.
Defined.

(** With non-negative [Int] leaves only: the tree [Var "2"] evaluates to
    itself, its rendered text "2" parses and evaluates to [Int 2]; the
    rendered text of [Var "x1"] does not parse. *)
Lemma digit_named_var_evaluates_differently :
  noNegativeInt (Var "2") = true /\
  bind (parseExpression (renderExpression (Var "2"))) evaluateExpression
    = Ok (Int 2) /\
  evaluateExpression (Var "2") = Ok (Var "2") /\
  noNegativeInt (Var "x1") = true /\
  bind (parseExpression (renderExpression (Var "x1"))) evaluateExpression
    = Err UnexpectedTokensAfterExpression /\
  evaluateExpression (Var "x1") = Ok (Var "x1").
Proof.
  repeat split; reflexivity.
Qed.

(** C5, amended. On a tree whose [Int] leaves are non-negative integers up
    to [2^53], which are printed in plain decimal and read back exactly, and
    whose [Var] names are non-empty runs of ASCII letters, rendering, parsing
    and evaluating gives the normal form that evaluating the tree gives. *)
Theorem render_parse_evaluate :
  forall e, renderable e = true -> exactLeaves e = true ->
    bind (parseExpression (renderExpression e)) evaluateExpression
      = evaluateExpression e /\
    exists v, evaluateExpression e = Ok v.
Proof.
  intros e Hr _. rewrite parseExpression_render by assumption.
  split; [reflexivity|apply evaluateExpression_total].
Qed.

Lemma render_parse_evaluate_witness :
  bind (parseExpression (renderExpression (Sub (Mul (Int 2) (Int 3)) (Var "x"))))
    evaluateExpression
    = evaluateExpression (Sub (Mul (Int 2) (Int 3)) (Var "x")).
Proof.
  apply (render_parse_evaluate (Sub (Mul (Int 2) (Int 3)) (Var "x")));
    reflexivity.
Defined.

(** ** Equivalence checker *)

Section Checker.

Variable random : nat -> Q.

(** With "x / 0" on one side a trial draws one number for [x], keeps the
    division by zero unreduced, folds it to NaN and is skipped. *)
Lemma runTrial_x_over_zero (calls : nat) :
  runTrial random ["x"] (Div (Var "x") (Int 0)) (Int 1) calls
    = Ok (Skipped, S calls).
Proof. reflexivity. Qed.

Lemma trialLoop_x_over_zero (remaining calls : nat) :
  trialLoop random remaining ["x"] (Div (Var "x") (Int 0)) (Int 1) calls
    = Ok true.
Proof.
  revert calls. induction remaining as [|n IH]; intros calls.
  - reflexivity.
  - cbn [trialLoop]. rewrite runTrial_x_over_zero. simpl. apply IH.
Qed.

End Checker.

Lemma setAdd_In (vars : list string) (name x : string) :
  In x (setAdd vars name) <-> In x vars \/ x = name.
Proof.
  unfold setAdd. destruct (existsb (String.eqb name) vars) eqn:E.
  - split; [auto|]. intros [H| ->]; [assumption|].
    apply existsb_exists in E as (y & Hy & Heq).
    apply String.eqb_eq in Heq. now subst.
  - rewrite in_app_iff. simpl. intuition.
Qed.

Lemma traverse_In (e : AlgExpr) (vars : list string) (x : string) :
  In x vars \/ occurs x e -> In x (traverse e vars).
Proof.
  revert vars.
  induction e as [n|y|a IHa b IHb|a IHa b IHb|a IHa b IHb|a IHa b IHb|a IHa];
    simpl; intros vars H;
    try (apply IHb; destruct H as [H|[H|H]]; auto).
  - tauto.
  - apply setAdd_In. assumption.
  - now apply IHa.
Qed.

Lemma fold_setAdd_In (l acc : list string) (x : string) :
  In x acc \/ In x l -> In x (fold_left setAdd l acc).
Proof.
  revert acc. induction l as [|y l IH]; simpl; intros acc H.
  - tauto.
  - apply IH. rewrite setAdd_In. intuition.
Qed.

Lemma unionSet_covers (expr1 expr2 : AlgExpr) (x : string) :
  occurs x expr1 \/ occurs x expr2 ->
  In x (unionSet (getVariablesSet expr1) (getVariablesSet expr2)).
Proof.
  intros H. unfold unionSet, getVariablesSet.
  apply fold_setAdd_In. right. apply in_or_app.
  destruct H; [left|right]; apply traverse_In; auto.
Qed.

Lemma mapSet_bound (varMap : VarMap) (key : string) (value : Z) (x : string) :
  bound varMap x \/ x = key -> bound (mapSet varMap key value) x.
Proof.
  unfold bound.
  induction varMap as [|[k v] m IH]; simpl; intros H.
  - destruct H as [[w Hw]| ->]; [discriminate|].
    rewrite String.eqb_refl. eauto.
  - destruct (String.eqb k key) eqn:Ek; simpl.
    + apply String.eqb_eq in Ek. subst k.
      destruct (String.eqb key x) eqn:Ex; [eauto|].
      destruct H as [H| ->]; [assumption|].
      rewrite String.eqb_refl in Ex. discriminate.
    + destruct (String.eqb k x) eqn:Ex; [eauto|]. apply IH, H.
Qed.

Section CheckerTotal.

Variable random : nat -> Q.

Lemma drawVariables_bound (vars : list string) (varMap : VarMap)
    (calls : nat) (x : string) :
  bound varMap x \/ In x vars ->
  bound (fst (drawVariables random vars varMap calls)) x.
Proof.
  revert varMap calls.
  induction vars as [|v vars IH]; simpl; intros varMap calls H.
  - tauto.
  - apply IH. destruct H as [H|[->|H]]; auto using mapSet_bound.
Qed.

Lemma substituteVariables_total (varMap : VarMap) (expr : AlgExpr) :
  (forall x, occurs x expr -> bound varMap x) ->
  exists expr', substituteVariables varMap expr = Ok expr'.
Proof.
  induction expr as [n|y|a IHa b IHb|a IHa b IHb|a IHa b IHb|a IHa b IHb|a IHa];
    simpl; intros H; eauto.
  - destruct (H y eq_refl) as [value ->]. eauto.
  - destruct IHa as [a' ->]; [auto|]. destruct IHb as [b' ->]; [auto|].
    simpl. eauto.
  - destruct IHa as [a' ->]; [auto|]. destruct IHb as [b' ->]; [auto|].
    simpl. eauto.
  - destruct IHa as [a' ->]; [auto|]. destruct IHb as [b' ->]; [auto|].
    simpl. eauto.
  - destruct IHa as [a' ->]; [auto|]. destruct IHb as [b' ->]; [auto|].
    simpl. eauto.
  - destruct IHa as [a' ->]; [auto|]. simpl. eauto.
Qed.

Lemma runTrial_total (vars : list string) (expr1 expr2 : AlgExpr)
    (calls : nat) :
  (forall x, occurs x expr1 \/ occurs x expr2 -> In x vars) ->
  exists outcome calls',
    runTrial random vars expr1 expr2 calls = Ok (outcome, calls').
Proof.
  intros Hvars. unfold runTrial.
  pose proof (fun x => drawVariables_bound vars [] calls x) as Hb.
  destruct (drawVariables random vars [] calls) as [varMap calls'].
  simpl in Hb.
  destruct (substituteVariables_total varMap expr1) as [s1 ->]; [auto|].
  destruct (substituteVariables_total varMap expr2) as [s2 ->]; [auto|].
  simpl.
  destruct (evaluateExpression_total s1) as [v1 ->].
  destruct (evaluateExpression_total s2) as [v2 ->].
  simpl. eauto.
Qed.

Lemma trialLoop_total (remaining : nat) (vars : list string)
    (expr1 expr2 : AlgExpr) (calls : nat) :
  (forall x, occurs x expr1 \/ occurs x expr2 -> In x vars) ->
  exists answer, trialLoop random remaining vars expr1 expr2 calls = Ok answer.
Proof.
  intros Hvars. revert calls.
  induction remaining as [|n IH]; intros calls; simpl; [eauto|].
  destruct (runTrial_total vars expr1 expr2 calls Hvars)
    as (outcome & calls' & ->).
  simpl. destruct outcome; eauto.
Qed.

(** The checker always answers: no variable is left without a value, and
    the evaluator does not fail. *)
Lemma areExpressionsEquivalent_total (expr1 expr2 : AlgExpr) :
  exists answer, areExpressionsEquivalent random expr1 expr2 = Ok answer.
Proof.
  unfold areExpressionsEquivalent. apply trialLoop_total.
  intros x. apply unionSet_covers.
Qed.

End CheckerTotal.

(** C6. Whatever numbers the random source returns, checking "x / 0"
    against "1" answers true: in every trial the substituted denominator is
    zero, the evaluator leaves the division as it is, its folded value is
    NaN, the trial is skipped, and after the ten trials the checker returns
    true. *)
Theorem equivalent_x_over_zero :
  parseExpression "x / 0" = Ok (Div (Var "x") (Int 0)) /\
  parseExpression "1" = Ok (Int 1) /\
  forall random : nat -> Q,
    areExpressionsEquivalent random (Div (Var "x") (Int 0)) (Int 1) = Ok true /\
    (forall value : Z,
        substituteVariables [("x", value)] (Div (Var "x") (Int 0))
          = Ok (Div (Int value) (Int 0)) /\
        evaluateExpression (Div (Int value) (Int 0))
          = Ok (Div (Int value) (Int 0)) /\
        getComputedValue (Div (Int value) (Int 0)) = None /\
        forall other, compareValues None other = Skipped) /\
    (forall calls,
        runTrial random (unionSet (getVariablesSet (Div (Var "x") (Int 0)))
                           (getVariablesSet (Int 1)))
          (Div (Var "x") (Int 0)) (Int 1) calls
          = Ok (Skipped, S calls)).
Proof.
  split; [reflexivity|]. split; [reflexivity|].
  intros random. split; [|split].
  - unfold areExpressionsEquivalent. apply trialLoop_x_over_zero.
  - intros value. repeat split.
  - intros calls. apply runTrial_x_over_zero.
Qed.

(** * Further properties *)

(** ** Evaluator: one rule for the operator nodes *)

Lemma evaluate_binaryOf (op : Op) (a b l r : AlgExpr) :
  evaluateExpression a = Ok l -> evaluateExpression b = Ok r ->
  evaluateExpression (binaryOf op a b) = Ok (foldNode op l r).
Proof.
  intros Ha Hb.
  destruct (evaluate_binary_eq a b l r Ha Hb) as (Eadd & Esub & Emul & Ediv).
  unfold foldNode.
  destruct op; simpl binaryOf;
    rewrite ?Eadd, ?Esub, ?Emul, ?Ediv; unfold evaluateArith, evaluateDiv.
  1, 2, 3:
    destruct (isNumber l) eqn:Nl;
      [|rewrite (getValue_not_number l Nl); reflexivity];
    destruct (isNumber_getValue l Nl) as [vl ->];
    destruct (isNumber r) eqn:Nr;
      [|rewrite (getValue_not_number r Nr); reflexivity];
    destruct (isNumber_getValue r Nr) as [vr ->]; reflexivity.
  destruct (isNumber l) eqn:Nl;
    [|rewrite (getValue_not_number l Nl); reflexivity].
  destruct (isNumber_getValue l Nl) as [vl ->].
  destruct (isNumber r) eqn:Nr;
    [|rewrite (getValue_not_number r Nr); reflexivity].
  destruct (isNumber_getValue r Nr) as [vr ->]. simpl.
  destruct (vr =? 0); simpl; [reflexivity|].
  destruct (Z.rem vl vr =? 0); reflexivity.
Qed.

Lemma foldNode_cases (op : Op) (l r : AlgExpr) :
  (exists vl vr n,
      getValue l = Ok vl /\ getValue r = Ok vr /\ foldZ op vl vr = Some n /\
      foldNode op l r = standardizeNumber n) \/
  (foldNode op l r = binaryOf op l r /\
   (isNumber l && isNumber r = false \/ op = Slash)).
Proof.
  unfold foldNode.
  destruct (getValue l) as [vl|] eqn:El.
  - destruct (getValue r) as [vr|] eqn:Er.
    + destruct (foldZ op vl vr) as [n|] eqn:Ef.
      * left. exists vl, vr, n. auto.
      * right. split; [reflexivity|]. right.
        destruct op; simpl in Ef; congruence.
    + right. split; [reflexivity|]. left.
      destruct (isNumber r) eqn:Nr.
      * destruct (isNumber_getValue r Nr) as [? ?]. congruence.
      * apply andb_false_r.
  - right. split; [reflexivity|]. left.
    destruct (isNumber l) eqn:Nl; [|reflexivity].
    destruct (isNumber_getValue l Nl) as [? ?]. congruence.
Qed.

(** Rule induction over the runs of the evaluator. *)
Lemma evaluateExpression_rules (P : AlgExpr -> AlgExpr -> Prop) :
  (forall n, P (Int n) (Int n)) ->
  (forall x, P (Var x) (Var x)) ->
  (forall op a b l r,
      evaluateExpression a = Ok l -> evaluateExpression b = Ok r ->
      P a l -> P b r -> P (binaryOf op a b) (foldNode op l r)) ->
  (forall a v,
      evaluateExpression a = Ok (Neg v) -> P a (Neg v) -> P (Neg a) v) ->
  (forall a v,
      evaluateExpression a = Ok v -> (forall b, v <> Neg b) -> P a v ->
      P (Neg a) (Neg v)) ->
  forall e v, evaluateExpression e = Ok v -> P e v.
Proof.
  intros Hint Hvar Hbin Hcancel Hwrap.
  assert (Hop : forall op a b,
             (forall v, evaluateExpression a = Ok v -> P a v) ->
             (forall v, evaluateExpression b = Ok v -> P b v) ->
             forall v, evaluateExpression (binaryOf op a b) = Ok v ->
                       P (binaryOf op a b) v).
  { intros op a b IHa IHb v H.
    destruct (evaluateExpression_total a) as [l Hl].
    destruct (evaluateExpression_total b) as [r Hr].
    rewrite (evaluate_binaryOf op a b l r Hl Hr) in H. injection H as <-.
    apply Hbin; auto. }
  induction e as [n|x|a IHa b IHb|a IHa b IHb|a IHa b IHb|a IHa b IHb|a IHa];
    intros v H.
  - injection H as <-. apply Hint.
  - injection H as <-. apply Hvar.
  - exact (Hop Plus a b IHa IHb v H).
  - exact (Hop Minus a b IHa IHb v H).
  - exact (Hop Times a b IHa IHb v H).
  - exact (Hop Slash a b IHa IHb v H).
  - destruct (evaluateExpression_total a) as [w Hw].
    rewrite (evaluateExpression_Neg a w Hw) in H. injection H as <-.
    destruct w; try (apply Hwrap; [assumption|intros ?; discriminate|auto]).
    apply Hcancel; auto.
Qed.

(** ** Evaluator: the value is kept *)

Lemma sameValue_refl a : sameValue a a.
Proof. destruct a; simpl; [reflexivity|exact I]. Qed.

Lemma sameValue_trans a b c : sameValue a b -> sameValue b c -> sameValue a c.
Proof.
  destruct a, b, c; simpl; try tauto. intros H1 H2. now rewrite H1.
Qed.

Lemma sameValue_sym a b : sameValue a b -> sameValue b a.
Proof. destruct a, b; simpl; try tauto. intros H. now symmetry. Qed.

Lemma binQ_sameValue op a a' b b' :
  sameValue a a' -> sameValue b b' -> sameValue (binQ op a b) (binQ op a' b').
Proof.
  intros Ha Hb.
  destruct b as [y|], b' as [y'|]; simpl in Hb;
    [|contradiction|contradiction|].
  - assert (Hz : Qeq_bool y 0 = Qeq_bool y' 0).
    { destruct (Qeq_bool y 0) eqn:E, (Qeq_bool y' 0) eqn:E'; try reflexivity.
      - apply Qeq_bool_iff in E. apply Qeq_bool_neq in E'.
        elim E'. now rewrite <- Hb.
      - apply Qeq_bool_iff in E'. apply Qeq_bool_neq in E.
        elim E. now rewrite Hb. }
    destruct a as [x|], a' as [x'|]; simpl in Ha; try tauto;
      destruct op; simpl; rewrite <- ?Hz;
      try destruct (Qeq_bool y 0); simpl; try exact I;
      now rewrite Ha, Hb.
  - destruct a, a', op; simpl in *; tauto.
Qed.

Lemma getComputedValue_binaryOf op a b :
  getComputedValue (binaryOf op a b)
    = binQ op (getComputedValue a) (getComputedValue b).
Proof.
  destruct op; reflexivity.
Qed.

Lemma getComputedValue_number (x : AlgExpr) (v : Z) :
  getValue x = Ok v -> getComputedValue x = Some (inject_Z v).
Proof.
  destruct x as [n| | | | | |[n| | | | | |]]; simpl; intros H;
    try discriminate; injection H as <-; [reflexivity|].
  now rewrite inject_Z_opp.
Qed.

Lemma inject_Z_nonzero (z : Z) : z <> 0 -> ~ inject_Z z == 0.
Proof. unfold Qeq. simpl. lia. Qed.

Lemma foldZ_value op vl vr n :
  foldZ op vl vr = Some n ->
  sameValue (Some (inject_Z n))
    (binQ op (Some (inject_Z vl)) (Some (inject_Z vr))).
Proof.
  destruct op; simpl; intros H.
  - injection H as <-. now rewrite inject_Z_plus.
  - injection H as <-. unfold Z.sub, Qminus.
    now rewrite inject_Z_plus, inject_Z_opp.
  - injection H as <-. now rewrite inject_Z_mult.
  - destruct (vr =? 0) eqn:Hz; simpl in H; [discriminate|].
    destruct (Z.rem vl vr =? 0) eqn:Hr; [|discriminate].
    injection H as <-. apply Z.eqb_neq in Hz. apply Z.eqb_eq in Hr.
    pose proof (inject_Z_nonzero vr Hz) as Hnz.
    destruct (Qeq_bool (inject_Z vr) 0) eqn:E;
      [apply Qeq_bool_iff in E; contradiction|].
    simpl.
    pose proof (Z.quot_rem' vl vr) as Hq. rewrite Hr, Z.add_0_r in Hq.
    rewrite Hq at 2. rewrite inject_Z_mult.
    rewrite Qmult_comm, Qdiv_mult_l by assumption. reflexivity.
Qed.

Lemma getComputedValue_standardizeNumber (n : Z) :
  getComputedValue (standardizeNumber n) = Some (inject_Z n).
Proof.
  apply getComputedValue_number, getValue_standardizeNumber.
Qed.

Lemma evaluateExpression_value (e v : AlgExpr) :
  evaluateExpression e = Ok v ->
  sameValue (getComputedValue v) (getComputedValue e).
Proof.
  revert e v. apply evaluateExpression_rules.
  - intros n. apply sameValue_refl.
  - intros x. apply sameValue_refl.
  - intros op a b l r _ _ IHa IHb.
    rewrite getComputedValue_binaryOf.
    apply sameValue_trans
      with (binQ op (getComputedValue l) (getComputedValue r));
      [|now apply binQ_sameValue].
    destruct (foldNode_cases op l r)
      as [(vl & vr & n & El & Er & Ef & ->)|[-> _]].
    + rewrite getComputedValue_standardizeNumber,
        (getComputedValue_number l vl El), (getComputedValue_number r vr Er).
      now apply foldZ_value.
    + rewrite getComputedValue_binaryOf. apply sameValue_refl.
  - intros a v _ IH. simpl in *.
    destruct (getComputedValue v) as [x|], (getComputedValue a) as [y|];
      simpl in *; try tauto.
    rewrite <- IH. symmetry. apply Qopp_involutive.
  - intros a v _ _ IH. simpl.
    destruct (getComputedValue v) as [x|], (getComputedValue a) as [y|];
      simpl in *; try tauto.
    now rewrite IH.
Qed.

(** ** Evaluator: variables, size, double negation, closed arithmetic *)

Lemma traverse_number (x : AlgExpr) (vars : list string) :
  isNumber x = true -> traverse x vars = vars.
Proof.
  destruct x as [n| | | | | |[n| | | | | |]]; simpl; congruence.
Qed.

Lemma traverse_binaryOf op a b vars :
  traverse (binaryOf op a b) vars = traverse b (traverse a vars).
Proof. destruct op; reflexivity. Qed.

Lemma evaluateExpression_traverse (e v : AlgExpr) :
  evaluateExpression e = Ok v ->
  forall vars, traverse v vars = traverse e vars.
Proof.
  revert e v.
  apply (evaluateExpression_rules
           (fun e v => forall vars, traverse v vars = traverse e vars));
    try reflexivity.
  - intros op a b l r _ _ IHa IHb vars.
    rewrite traverse_binaryOf, <- IHa, <- IHb.
    destruct (foldNode_cases op l r)
      as [(vl & vr & n & El & Er & _ & ->)|[-> _]].
    + rewrite (traverse_number l) by (eapply getValue_isNumber; eassumption).
      rewrite (traverse_number r) by (eapply getValue_isNumber; eassumption).
      apply traverse_number, isNumber_standardizeNumber.
    + apply traverse_binaryOf.
  - intros a v _ IH vars. simpl. rewrite <- IH. reflexivity.
  - intros a v _ _ IH vars. simpl. apply IH.
Qed.

Lemma size_binaryOf op a b : size (binaryOf op a b) = S (size a + size b).
Proof. destruct op; reflexivity. Qed.

Lemma size_pos (e : AlgExpr) : (1 <= size e)%nat.
Proof. destruct e; simpl; lia. Qed.

Lemma size_standardizeNumber (n : Z) : (size (standardizeNumber n) <= 2)%nat.
Proof. unfold standardizeNumber. destruct (n <? 0); simpl; lia. Qed.

Lemma evaluateExpression_size (e v : AlgExpr) :
  evaluateExpression e = Ok v -> (size v <= size e)%nat.
Proof.
  revert e v.
  apply (evaluateExpression_rules (fun e v => (size v <= size e)%nat));
    try (intros; simpl; lia).
  - intros op a b l r _ _ IHa IHb. rewrite size_binaryOf.
    destruct (foldNode_cases op l r)
      as [(vl & vr & n & _ & _ & _ & ->)|[-> _]].
    + pose proof (size_standardizeNumber n).
      pose proof (size_pos a). pose proof (size_pos b). lia.
    + rewrite size_binaryOf. lia.
  - intros a v _ IH. simpl in *. lia.
Qed.

Lemma evaluateExpression_double_negation (e : AlgExpr) :
  evaluateExpression (Neg (Neg e)) = evaluateExpression e.
Proof.
  destruct (evaluateExpression_total e) as [v Hv].
  pose proof (evaluateExpression_noNegNeg e v Hv) as Hnn.
  rewrite (evaluateExpression_Neg (Neg e) _ (evaluateExpression_Neg e v Hv)).
  rewrite Hv. f_equal.
  destruct v; try reflexivity.
  (* the value is [Neg v]: the inner call returns [v], which is no [Neg] *)
  apply noNegNeg_Neg_inv in Hnn as [_ Hneg].
  destruct v; try reflexivity. now elim (Hneg v).
Qed.

Lemma evaluateExpression_closedArith (e : AlgExpr) :
  closedArith e = true ->
  exists v, evaluateExpression e = Ok v /\
            isNumber v = true /\ getValue v = Ok (arithValue e).
Proof.
  assert (Hbin : forall op a b,
             op <> Slash ->
             (exists v, evaluateExpression a = Ok v /\
                        isNumber v = true /\ getValue v = Ok (arithValue a)) ->
             (exists v, evaluateExpression b = Ok v /\
                        isNumber v = true /\ getValue v = Ok (arithValue b)) ->
             forall n, foldZ op (arithValue a) (arithValue b) = Some n ->
             exists v, evaluateExpression (binaryOf op a b) = Ok v /\
                       isNumber v = true /\ getValue v = Ok n).
  { intros op a b Hop (l & Hl & Nl & Vl) (r & Hr & Nr & Vr) n Hn.
    exists (standardizeNumber n).
    rewrite (evaluate_binaryOf op a b l r Hl Hr). unfold foldNode.
    rewrite Vl, Vr, Hn.
    auto using isNumber_standardizeNumber, getValue_standardizeNumber. }
  induction e as [n|x|a IHa b IHb|a IHa b IHb|a IHa b IHb|a IHa b IHb|a IHa];
    simpl closedArith; intros Hc; try discriminate.
  - exists (Int n). auto.
  - apply andb_prop in Hc as [Ha Hb].
    apply (Hbin Plus a b); auto; discriminate.
  - apply andb_prop in Hc as [Ha Hb].
    apply (Hbin Minus a b); auto; discriminate.
  - apply andb_prop in Hc as [Ha Hb].
    apply (Hbin Times a b); auto; discriminate.
  - destruct (IHa Hc) as (v & Hv & Nv & Vv).
    rewrite (evaluateExpression_Neg a v Hv).
    destruct v as [n| | | | | |[n| | | | | |]]; try discriminate;
      simpl in Vv; injection Vv as Vv; simpl arithValue; rewrite <- Vv;
      eexists; split; try reflexivity; split; try reflexivity.
    simpl. f_equal. lia.
Qed.

(** X1. The evaluator does not change what an expression is worth: folding the
    output with [getComputedValue] gives the value of the input, NaN
    included. *)
Theorem evaluate_preserves_value :
  forall e, exists v,
    evaluateExpression e = Ok v /\
    sameValue (getComputedValue v) (getComputedValue e).
Proof.
  intros e. destruct (evaluateExpression_total e) as [v Hv].
  exists v. split; [assumption|]. now apply evaluateExpression_value.
Qed.

(** X2. The evaluator neither drops nor adds a variable, and keeps their order
    of first occurrence: the output has the variable set of the input. *)
Theorem evaluate_preserves_variables :
  forall e, exists v,
    evaluateExpression e = Ok v /\ getVariablesSet v = getVariablesSet e.
Proof.
  intros e. destruct (evaluateExpression_total e) as [v Hv].
  exists v. split; [assumption|]. unfold getVariablesSet.
  now apply evaluateExpression_traverse.
Qed.

(** X3. The output of the evaluator has at most as many nodes as the input. *)
Theorem evaluate_never_grows :
  forall e, exists v,
    evaluateExpression e = Ok v /\ (size v <= size e)%nat.
Proof.
  intros e. destruct (evaluateExpression_total e) as [v Hv].
  exists v. split; [assumption|]. now apply evaluateExpression_size.
Qed.

(** X4. Two negations around any expression cancel under evaluation. *)
Theorem evaluate_double_negation :
  forall e, evaluateExpression (Neg (Neg e)) = evaluateExpression e /\
            exists v, evaluateExpression e = Ok v.
Proof.
  intros e. split;
    [apply evaluateExpression_double_negation|apply evaluateExpression_total].
Qed.

Lemma exactLeaves_number (v : AlgExpr) (n : Z) :
  getValue v = Ok n -> exactInt n = true -> exactLeaves v = true.
Proof.
  unfold exactInt.
  destruct v as [m| | | | | |[m| | | | | |]]; simpl; intros H Hn;
    try discriminate; injection H as <-; [assumption|].
  apply andb_prop in Hn as [H1 H2]. apply Z.leb_le in H1, H2.
  unfold exactInt. apply andb_true_intro.
  unfold maxExact in *. split; apply Z.leb_le; lia.
Qed.

Lemma exactArith_root (e : AlgExpr) :
  exactArith e = true -> exactInt (arithValue e) = true.
Proof.
  destruct e; cbn [exactArith]; intros H; apply andb_prop in H as [H _];
    exact H.
Qed.

(** X5. An expression without variables and divisions, all of whose
    subtrees have an integer value up to [2^53] in absolute value, evaluates
    to a single number in that range, and that number is the value of the
    expression in integer arithmetic. *)
Theorem evaluate_closed_arithmetic :
  forall e, closedArith e = true -> exactArith e = true ->
    exists v, evaluateExpression e = Ok v /\
              isNumber v = true /\ getValue v = Ok (arithValue e) /\
              exactLeaves v = true.
Proof.
  intros e Hc He.
  destruct (evaluateExpression_closedArith e Hc) as (v & Hv & Nv & Vv).
  exists v. repeat (split; [assumption|]).
  apply (exactLeaves_number v (arithValue e) Vv), exactArith_root, He.
Qed.

Lemma evaluate_closed_arithmetic_witness :
  exists v,
    evaluateExpression (Sub (Mul (Int 2) (Neg (Int 3))) (Add (Int 1) (Int 4)))
      = Ok v /\
    isNumber v = true /\ getValue v = Ok (-11) /\ exactLeaves v = true.
Proof.
  apply (evaluate_closed_arithmetic
           (Sub (Mul (Int 2) (Neg (Int 3))) (Add (Int 1) (Int 4))));
    reflexivity.
Defined.

(** ** Tokenizer: what the tokens look like *)

Lemma isDigit_digitValue (c : ascii) :
  isDigit c = true -> 0 <= digitValue c <= 9.
Proof.
  unfold isDigit, digitValue. intros H.
  apply andb_prop in H as [H1 H2]. apply Nat.leb_le in H1, H2. lia.
Qed.

Lemma parseInt_nonneg (ds : list ascii) :
  forallb isDigit ds = true -> 0 <= parseInt ds.
Proof.
  assert (H : forall acc, forallb isDigit ds = true -> 0 <= acc ->
                          0 <= fold_left (fun a c => 10 * a + digitValue c) ds acc).
  { induction ds as [|c ds IH]; cbn [fold_left forallb];
      intros acc Hall Hacc; [assumption|].
    apply andb_prop in Hall as [Hc Hall].
    apply IH; [assumption|]. apply isDigit_digitValue in Hc. lia. }
  intros Hall. apply H; [assumption|lia].
Qed.

Lemma scanWhile_nonempty test c rest run rest' :
  test c = true -> scanWhile test (c :: rest) = (run, rest') -> run <> [].
Proof.
  simpl. intros ->. destruct (scanWhile test rest).
  intros H. injection H as <- _. discriminate.
Qed.

Lemma isIdentifier_run (run : list ascii) :
  run <> [] -> forallb isLetter run = true ->
  isIdentifier (string_of_list_ascii run) = true.
Proof.
  intros Hne Hall. unfold isIdentifier.
  rewrite list_ascii_of_string_of_list_ascii.
  destruct run; [congruence|assumption].
Qed.

Lemma tokenizeLoop_wellFormed fuel input tokens ts :
  forallb tokenWellFormed tokens = true ->
  tokenizeLoop fuel input tokens = Ok ts ->
  forallb tokenWellFormed ts = true.
Proof.
  revert input tokens.
  induction fuel as [|fuel IH]; intros input tokens Hacc H;
    destruct input as [|c rest]; try discriminate;
    try (injection H as <-; assumption).
  rewrite tokenizeLoop_step in H.
  assert (Hpush : forall t, tokenWellFormed t = true ->
                            forallb tokenWellFormed (tokens ++ [t]) = true).
  { intros t Ht. rewrite forallb_app, Hacc. simpl. now rewrite Ht. }
  destruct (isSpace c); [eauto|].
  destruct (isDigit c) eqn:Hd.
  { destruct (scanWhile isDigit (c :: rest)) as [run rest'] eqn:E.
    apply scanWhile_spec in E as [_ Hall].
    eapply IH; [|exact H]. apply Hpush. simpl.
    apply Z.leb_le. now apply parseInt_nonneg. }
  destruct (isLetter c) eqn:Hl.
  { destruct (scanWhile isLetter (c :: rest)) as [run rest'] eqn:E.
    pose proof (scanWhile_nonempty _ _ _ _ _ Hl E) as Hne.
    apply scanWhile_spec in E as [_ Hall].
    eapply IH; [|exact H]. apply Hpush. simpl.
    now apply isIdentifier_run. }
  destruct (opOfChar c); [eapply IH; [|exact H]; now apply Hpush|].
  destruct (Ascii.eqb c "("); [eapply IH; [|exact H]; now apply Hpush|].
  destruct (Ascii.eqb c ")"); [eapply IH; [|exact H]; now apply Hpush|].
  discriminate.
Qed.

(** ** Parser: what the trees look like *)

Lemma renderable_binaryOf op a b :
  renderable (binaryOf op a b) = renderable a && renderable b.
Proof. destruct op; reflexivity. Qed.

Lemma grammar_renderable :
  (forall ts e, GPrimary ts e ->
                forallb tokenWellFormed ts = true -> renderable e = true) /\
  (forall ts e, GMulDiv ts e ->
                forallb tokenWellFormed ts = true -> renderable e = true) /\
  (forall lhs ts e, GMulDivRest lhs ts e ->
                    renderable lhs = true ->
                    forallb tokenWellFormed ts = true -> renderable e = true) /\
  (forall ts e, GAddSub ts e ->
                forallb tokenWellFormed ts = true -> renderable e = true) /\
  (forall lhs ts e, GAddSubRest lhs ts e ->
                    renderable lhs = true ->
                    forallb tokenWellFormed ts = true -> renderable e = true).
Proof.
  apply grammar_mutind; simpl; intros;
    repeat match goal with
      | H : forallb _ (_ ++ _) = true |- _ =>
          rewrite forallb_app in H; apply andb_prop in H as [? ?]
      | H : _ && _ = true |- _ => apply andb_prop in H as [? ?]
      end;
    simpl in *; auto.
  all: match goal with
       | IH : _ && _ = true -> _ -> _ |- _ =>
           apply IH; [apply andb_true_intro; auto | assumption]
       end.
Qed.

Lemma parseExpression_renderable (s : string) (e : AlgExpr) :
  parseExpression s = Ok e -> renderable e = true.
Proof.
  unfold parseExpression. intros H. inv_bind H.
  apply parse_Ok_iff in H.
  destruct grammar_renderable as (_ & _ & _ & Has & _).
  apply (Has _ _ H). eapply tokenizeLoop_wellFormed; [|exact Hx]. reflexivity.
Qed.

Lemma renderable_noNegativeInt (e : AlgExpr) :
  renderable e = true -> noNegativeInt e = true.
Proof.
  induction e; simpl; intros H; auto;
    apply andb_prop in H as [Ha Hb]; rewrite IHe1, IHe2; auto.
Qed.

(** ** Tokenizer: whitespace *)

Lemma tokenizeLoop_spaces fuel input tokens :
  forallb isSpace input = true -> (List.length input <= fuel)%nat ->
  tokenizeLoop fuel input tokens = Ok tokens.
Proof.
  revert input.
  induction fuel as [|fuel IH]; intros input Hall Hlen;
    destruct input as [|c rest]; simpl in Hlen; try reflexivity; try lia.
  simpl in Hall. apply andb_prop in Hall as [Hc Hall].
  rewrite tokenizeLoop_step, Hc. apply IH; [assumption|lia].
Qed.

Lemma isSpace_not_digit (c : ascii) : isSpace c = true -> isDigit c = false.
Proof.
  destruct c as [[] [] [] [] [] [] [] []]; vm_compute; congruence.
Qed.

Lemma isSpace_not_letter (c : ascii) : isSpace c = true -> isLetter c = false.
Proof.
  destruct c as [[] [] [] [] [] [] [] []]; vm_compute; congruence.
Qed.

Lemma scanWhile_before test s sep rest run r :
  test sep = false -> scanWhile test s = (run, r) ->
  scanWhile test (s ++ sep :: rest) = (run, r ++ sep :: rest).
Proof.
  intros Hsep. revert run r.
  induction s as [|c s IH]; simpl; intros run r H.
  - injection H as <- <-. now rewrite Hsep.
  - destruct (test c).
    + destruct (scanWhile test s) as [run' r'].
      injection H as <- <-. now rewrite (IH run' r').
    + injection H as <- <-. reflexivity.
Qed.

Lemma tokenizeLoop_delimiter fuel s1 sep s2 tokens :
  isDigit sep = false -> isLetter sep = false ->
  (List.length s1 <= fuel)%nat ->
  tokenizeFrom (s1 ++ sep :: s2) tokens
    = bind (tokenizeLoop fuel s1 tokens) (fun ts => tokenizeFrom (sep :: s2) ts).
Proof.
  intros Hsd Hsl. revert s1 tokens.
  induction fuel as [|fuel IH]; intros s1 tokens Hlen;
    destruct s1 as [|c r]; simpl in Hlen; try lia; try reflexivity.
  assert (Hgo : forall r' acc,
             (List.length r' <= List.length r)%nat ->
             tokenizeLoop (List.length (r ++ sep :: s2)) (r' ++ sep :: s2) acc
               = bind (tokenizeLoop fuel r' acc)
                   (fun ts => tokenizeFrom (sep :: s2) ts)).
  { intros r' acc Hr. rewrite <- IH by lia.
    apply tokenizeLoop_from. rewrite !length_app. simpl. lia. }
  unfold tokenizeFrom at 1. simpl app. simpl List.length.
  rewrite !tokenizeLoop_step.
  destruct (isSpace c); [apply Hgo; lia|].
  destruct (isDigit c) eqn:Hd.
  { destruct (scanWhile isDigit (c :: r)) as [run r'] eqn:E.
    change (c :: r ++ sep :: s2) with ((c :: r) ++ sep :: s2).
    rewrite (scanWhile_before _ _ _ _ _ _ Hsd E).
    apply Hgo. eapply scanWhile_first; eassumption. }
  destruct (isLetter c) eqn:Hl.
  { destruct (scanWhile isLetter (c :: r)) as [run r'] eqn:E.
    change (c :: r ++ sep :: s2) with ((c :: r) ++ sep :: s2).
    rewrite (scanWhile_before _ _ _ _ _ _ Hsl E).
    apply Hgo. eapply scanWhile_first; eassumption. }
  destruct (opOfChar c); [apply Hgo; lia|].
  destruct (Ascii.eqb c "("); [apply Hgo; lia|].
  destruct (Ascii.eqb c ")"); [apply Hgo; lia|reflexivity].
Qed.

(** The tokens pushed do not depend on the tokens already in the array. *)
Lemma tokenizeLoop_tokens fuel input tokens :
  tokenizeLoop fuel input tokens
    = bind (tokenizeLoop fuel input []) (fun ts => Ok (tokens ++ ts)).
Proof.
  revert input tokens.
  induction fuel as [|fuel IH]; intros input tokens;
    destruct input as [|c rest];
    try (simpl; now rewrite ?app_nil_r).
  assert (Hgo : forall r t,
             tokenizeLoop fuel r (tokens ++ [t])
               = bind (tokenizeLoop fuel r ([] ++ [t]))
                   (fun ts => Ok (tokens ++ ts))).
  { intros r t. rewrite (IH r (tokens ++ [t])), (IH r ([] ++ [t])).
    destruct (tokenizeLoop fuel r []) as [ts|]; simpl; [|reflexivity].
    now rewrite <- app_assoc. }
  rewrite !tokenizeLoop_step.
  destruct (isSpace c); [apply IH|].
  destruct (isDigit c);
    [destruct (scanWhile isDigit (c :: rest)); apply Hgo|].
  destruct (isLetter c);
    [destruct (scanWhile isLetter (c :: rest)); apply Hgo|].
  destruct (opOfChar c); [apply Hgo|].
  destruct (Ascii.eqb c "("); [apply Hgo|].
  destruct (Ascii.eqb c ")"); [apply Hgo|reflexivity].
Qed.

Lemma chars_String (c : ascii) (s : string) : chars (String c s) = c :: chars s.
Proof. reflexivity. Qed.

Lemma string_app_assoc (s1 s2 s3 : string) :
  ((s1 ++ s2) ++ s3 = s1 ++ (s2 ++ s3))%string.
Proof.
  induction s1 as [|c s1 IH]; simpl; [reflexivity|]. now rewrite IH.
Qed.

Lemma bind_bind {A B C : Type} (m : result A) (f : A -> result B)
    (g : B -> result C) :
  bind (bind m f) g = bind m (fun a => bind (f a) g).
Proof. destruct m; reflexivity. Qed.

Lemma tokenize_delimiter (s1 : string) (c : ascii) (s2 : string) :
  isDigit c = false -> isLetter c = false ->
  tokenize (s1 ++ String c s2)
    = (ts1 <- tokenize s1 ;; ts2 <- tokenize (String c s2) ;; Ok (ts1 ++ ts2)).
Proof.
  intros Hd Hl. rewrite !tokenize_from, chars_app, chars_String.
  rewrite (tokenizeLoop_delimiter (List.length (chars s1)) _ _ _ _ Hd Hl)
    by lia.
  fold (tokenizeFrom (chars s1) []).
  destruct (tokenizeFrom (chars s1) []) as [ts1|err]; simpl; [|reflexivity].
  unfold tokenizeFrom. rewrite tokenizeLoop_tokens. reflexivity.
Qed.

Lemma tokenize_leading_space (c : ascii) (s : string) :
  isSpace c = true -> tokenize (String c s) = tokenize s.
Proof.
  intros Hc. rewrite !tokenize_from, chars_String.
  unfold tokenizeFrom at 1. simpl List.length.
  rewrite tokenizeLoop_step, Hc. reflexivity.
Qed.

(** X6. Tokenizing splits at every character that is neither a digit nor a
    letter: the tokens of the text before it, then the tokens of the rest;
    and a whitespace character only separates. *)
Theorem tokenize_splits_at_delimiters :
  (forall s1 c s2,
      isDigit c = false -> isLetter c = false ->
      tokenize (s1 ++ String c s2)
        = (ts1 <- tokenize s1 ;; ts2 <- tokenize (String c s2) ;;
           Ok (ts1 ++ ts2))) /\
  (forall s1 c s2,
      isSpace c = true ->
      tokenize (s1 ++ String c s2)
        = (ts1 <- tokenize s1 ;; ts2 <- tokenize s2 ;; Ok (ts1 ++ ts2))).
Proof.
  split.
  - exact tokenize_delimiter.
  - intros s1 c s2 Hc.
    rewrite tokenize_delimiter
      by auto using isSpace_not_digit, isSpace_not_letter.
    now rewrite tokenize_leading_space.
Qed.

Lemma tokenize_splits_at_delimiters_witness :
  tokenize ("12" ++ String "+" "x")
    = (ts1 <- tokenize "12" ;; ts2 <- tokenize (String "+" "x") ;;
       Ok (ts1 ++ ts2)) /\
  tokenize ("ab" ++ String " " "cd")
    = (ts1 <- tokenize "ab" ;; ts2 <- tokenize "cd" ;; Ok (ts1 ++ ts2)).
Proof.
  split.
  - apply (proj1 tokenize_splits_at_delimiters "12" "+"%char "x"); reflexivity.
  - apply (proj2 tokenize_splits_at_delimiters "ab" " "%char "cd"); reflexivity.
Defined.

(** X7. Every token the tokenizer returns is well formed: a number token is
    not negative and a variable token holds a non-empty run of letters. *)
Theorem tokenize_tokens_wellformed :
  forall s ts, tokenize s = Ok ts -> forallb tokenWellFormed ts = true.
Proof.
  intros s ts H. eapply tokenizeLoop_wellFormed; [|exact H]. reflexivity.
Qed.

Lemma tokenize_tokens_wellformed_witness :
  forallb tokenWellFormed
    [TNumber 40; TOp Minus; TLParen; TVar "rate"; TOp Times; TNumber 2; TRParen]
    = true.
Proof.
  apply (tokenize_tokens_wellformed "40 - (rate*2)"). reflexivity.
Defined.

(** X8. A tree that comes out of the parser has non-negative [Int] leaves
    and identifier names; when its [Int] leaves are at most [2^53], parsing
    its rendered text gives it back. *)
Theorem parse_render_parse :
  forall s e,
    parseExpression s = Ok e ->
    renderable e = true /\
    (exactLeaves e = true -> parseExpression (renderExpression e) = Ok e).
Proof.
  intros s e H. apply parseExpression_renderable in H.
  split; [assumption|]. intros _. now apply parseExpression_render.
Qed.

Lemma parse_render_parse_witness :
  renderable (Sub (Neg (Var "a")) (Mul (Int 2) (Var "b"))) = true /\
  parseExpression (renderExpression (Sub (Neg (Var "a")) (Mul (Int 2) (Var "b"))))
    = Ok (Sub (Neg (Var "a")) (Mul (Int 2) (Var "b"))).
Proof.
  destruct (parse_render_parse "-a - 2*b"
              (Sub (Neg (Var "a")) (Mul (Int 2) (Var "b"))) eq_refl)
    as [Hr Hp].
  split; [exact Hr|]. apply Hp. reflexivity.
Defined.

(** X9. On trees with non-negative [Int] leaves up to [2^53] and
    identifier names the rendered text determines the tree. *)
Theorem render_injective :
  forall e1 e2,
    renderable e1 = true -> exactLeaves e1 = true ->
    renderable e2 = true -> exactLeaves e2 = true ->
    renderExpression e1 = renderExpression e2 -> e1 = e2.
Proof.
  intros e1 e2 H1 _ H2 _ E.
  apply parseExpression_render in H1, H2. rewrite E in H1. congruence.
Qed.

Lemma render_injective_witness :
  Add (Var "x") (Int 1) = Add (Var "x") (Int 1).
Proof.
  apply (render_injective (Add (Var "x") (Int 1)) (Add (Var "x") (Int 1)));
    reflexivity.
Defined.

Lemma tokenize_parenthesized (s : string) (ts : list Token) :
  tokenize s = Ok ts ->
  tokenize ("(" ++ s ++ ")") = Ok (TLParen :: ts ++ [TRParen]).
Proof.
  intros H.
  change ("(" ++ s ++ ")")%string with (String "(" (s ++ String ")" "")).
  rewrite tokenize_from, chars_String, tokenizeFrom_lparen, chars_app,
    chars_String.
  rewrite (tokenizeLoop_delimiter (List.length (chars s))) by (reflexivity || lia).
  fold (tokenizeFrom (chars s) ([] ++ [TLParen])).
  unfold tokenizeFrom at 1. rewrite tokenizeLoop_tokens.
  fold (tokenizeFrom (chars s) []). rewrite <- tokenize_from, H. reflexivity.
Qed.

(** X10. A pair of parentheses around a text that parses does not change the
    tree. *)
Theorem parse_parenthesized :
  forall s e,
    parseExpression s = Ok e -> parseExpression ("(" ++ s ++ ")") = Ok e.
Proof.
  unfold parseExpression. intros s e H. inv_bind H.
  rewrite (tokenize_parenthesized s x Hx). simpl.
  apply parse_Ok_iff, GPrimary_as_AddSub, GP_paren. now apply parse_Ok_iff.
Qed.

Lemma parse_parenthesized_witness :
  parseExpression ("(" ++ "1 - x" ++ ")") = Ok (Sub (Int 1) (Var "x")).
Proof.
  apply (parse_parenthesized "1 - x"). reflexivity.
Defined.

(** X11. [*] and [/] bind tighter than [+] and [-] on either side: in
    [a + b * c] the product is the right operand of the sum, and in
    [a * b + c] it is the left one. *)
Theorem parser_precedence :
  (forall op1 op2 ta a tb b tc c,
      isAdditive op1 = true -> isAdditive op2 = false ->
      GMulDiv ta a -> GPrimary tb b -> GPrimary tc c ->
      parse (ta ++ TOp op1 :: tb ++ TOp op2 :: tc)
        = Ok (binaryOf op1 a (binaryOf op2 b c))) /\
  (forall op1 op2 ta a tb b tc c,
      isAdditive op1 = false -> isAdditive op2 = true ->
      GPrimary ta a -> GPrimary tb b -> GMulDiv tc c ->
      parse (ta ++ TOp op1 :: tb ++ TOp op2 :: tc)
        = Ok (binaryOf op2 (binaryOf op1 a b) c)).
Proof.
  split.
  - intros op1 op2 ta a tb b tc c H1 H2 Ha Hb Hc.
    apply parse_Ok_iff.
    change (TOp op1 :: tb ++ TOp op2 :: tc)
      with (TOp op1 :: (tb ++ TOp op2 :: tc)).
    apply GAddSub_binary; [assumption|assumption|].
    now apply GMulDiv_binary.
  - intros op1 op2 ta a tb b tc c H1 H2 Ha Hb Hc.
    apply parse_Ok_iff.
    replace (ta ++ TOp op1 :: tb ++ TOp op2 :: tc)
      with ((ta ++ TOp op1 :: tb) ++ TOp op2 :: tc)
      by (rewrite <- app_assoc; reflexivity).
    apply GAddSub_binary; [assumption| |assumption].
    now apply GMulDiv_binary.
Qed.

Lemma parser_precedence_witness :
  parse [TNumber 1; TOp Plus; TVar "x"; TOp Times; TNumber 3]
    = Ok (Add (Int 1) (Mul (Var "x") (Int 3))) /\
  parse [TNumber 1; TOp Slash; TVar "x"; TOp Minus; TNumber 3]
    = Ok (Sub (Div (Int 1) (Var "x")) (Int 3)).
Proof.
  split.
  - apply (proj1 parser_precedence Plus Times [TNumber 1] (Int 1)
             [TVar "x"] (Var "x") [TNumber 3] (Int 3));
      try reflexivity; try apply GPrimary_as_MulDiv; constructor.
  - apply (proj2 parser_precedence Slash Minus [TNumber 1] (Int 1)
             [TVar "x"] (Var "x") [TNumber 3] (Int 3));
      try reflexivity; try apply GPrimary_as_MulDiv; constructor.
Defined.

(** X12. A text of whitespace only, the empty text included, has no tokens
    and is rejected with "Unexpected end of input". *)
Theorem parse_blank_input :
  forall s,
    forallb isSpace (chars s) = true ->
    tokenize s = Ok [] /\ parseExpression s = Err UnexpectedEndOfInput.
Proof.
  intros s H.
  assert (E : tokenize s = Ok []).
  { unfold tokenize. apply tokenizeLoop_spaces; [exact H|].
    fold (chars s). rewrite length_chars. lia. }
  split; [assumption|]. unfold parseExpression. rewrite E. reflexivity.
Qed.

Lemma parse_blank_input_witness :
  tokenize "   " = Ok [] /\ parseExpression "   " = Err UnexpectedEndOfInput.
Proof.
  apply (parse_blank_input "   "). reflexivity.
Defined.

(** X13. The typeset rendering writes no parentheses, so it does not tell
    apart trees that differ in grouping only. *)
Theorem latex_drops_grouping :
  forall a b c,
    renderExpressionLatex (Sub a (Sub b c))
      = renderExpressionLatex (Sub (Sub a b) c) /\
    renderExpressionLatex (Mul (Add a b) c)
      = renderExpressionLatex (Add a (Mul b c)) /\
    renderExpressionLatex (Neg (Add a b))
      = renderExpressionLatex (Add (Neg a) b).
Proof.
  intros a b c. simpl.
  repeat split; repeat rewrite string_app_assoc; reflexivity.
Qed.

(** X14. Evaluating what the parser returns for any text gives a tree with
    no negative [Int] and no double negation. *)
Theorem evaluate_parsed_text :
  forall s e,
    parseExpression s = Ok e ->
    exists v, evaluateExpression e = Ok v /\
              noNegNeg v = true /\ noNegativeInt v = true.
Proof.
  intros s e H. destruct (evaluateExpression_total e) as [v Hv].
  exists v. split; [assumption|]. split.
  - eapply evaluateExpression_noNegNeg; eassumption.
  - eapply evaluateExpression_noNegativeInt; [|eassumption].
    eapply renderable_noNegativeInt, parseExpression_renderable; eassumption.
Qed.

Lemma evaluate_parsed_text_witness :
  exists v, evaluateExpression (Sub (Int 3) (Mul (Int 4) (Int 5))) = Ok v /\
            noNegNeg v = true /\ noNegativeInt v = true.
Proof.
  apply (evaluate_parsed_text "3 - 4*5"). reflexivity.
Defined.

(** ** Equivalence checker: variables and substitution *)

Lemma setAdd_NoDup (vars : list string) (name : string) :
  NoDup vars -> NoDup (setAdd vars name).
Proof.
  intros H. unfold setAdd.
  destruct (existsb (String.eqb name) vars) eqn:E; [assumption|].
  apply NoDup_app; [assumption|repeat constructor; auto|].
  intros x Hin [Hx|[]]. subst x.
  assert (existsb (String.eqb name) vars = true) as E'; [|congruence].
  apply existsb_exists. exists name. split; [assumption|apply String.eqb_refl].
Qed.

Lemma traverse_NoDup (e : AlgExpr) (vars : list string) :
  NoDup vars -> NoDup (traverse e vars).
Proof.
  revert vars. induction e; simpl; intros vars H; auto using setAdd_NoDup.
Qed.

Lemma traverse_In_inv (e : AlgExpr) (vars : list string) (x : string) :
  In x (traverse e vars) -> In x vars \/ occurs x e.
Proof.
  revert vars.
  induction e as [n|y|a IHa b IHb|a IHa b IHb|a IHa b IHb|a IHa b IHb|a IHa];
    simpl; intros vars H; auto;
    try (apply IHb in H as [H|H]; [apply IHa in H|]; tauto).
  apply setAdd_In in H. tauto.
Qed.

Lemma getVariablesSet_In (e : AlgExpr) (x : string) :
  In x (getVariablesSet e) <-> occurs x e.
Proof.
  unfold getVariablesSet. split.
  - intros H. apply traverse_In_inv in H as [[]|H]. assumption.
  - intros H. apply traverse_In. auto.
Qed.

Lemma fold_setAdd_NoDup (l acc : list string) :
  NoDup acc -> NoDup (fold_left setAdd l acc).
Proof.
  revert acc. induction l; simpl; auto using setAdd_NoDup.
Qed.

Lemma fold_setAdd_In_inv (l acc : list string) (x : string) :
  In x (fold_left setAdd l acc) -> In x acc \/ In x l.
Proof.
  revert acc. induction l as [|y l IH]; simpl; intros acc H; [auto|].
  apply IH in H as [H|H]; [|auto]. apply setAdd_In in H. intuition.
Qed.

Lemma substituteVariables_Ok_bound (varMap : VarMap) (expr expr' : AlgExpr) :
  substituteVariables varMap expr = Ok expr' ->
  (forall x, occurs x expr -> bound varMap x) /\
  (forall vars, traverse expr' vars = vars).
Proof.
  revert expr'.
  induction expr as [n|y|a IHa b IHb|a IHa b IHb|a IHa b IHb|a IHa b IHb|a IHa];
    simpl; intros expr' H.
  - injection H as <-. split; [intros x []|reflexivity].
  - destruct (mapGet varMap y) as [value|] eqn:E; [|discriminate].
    injection H as <-. split; [|reflexivity].
    intros x ->. exists value. assumption.
  - inv_bind H. inv_bind H. injection H as <-.
    destruct (IHa _ Hx) as [Ba Ta]. destruct (IHb _ Hx0) as [Bb Tb].
    split; [intros y [Hy|Hy]; auto|]. intros vars. simpl. now rewrite Ta, Tb.
  - inv_bind H. inv_bind H. injection H as <-.
    destruct (IHa _ Hx) as [Ba Ta]. destruct (IHb _ Hx0) as [Bb Tb].
    split; [intros y [Hy|Hy]; auto|]. intros vars. simpl. now rewrite Ta, Tb.
  - inv_bind H. inv_bind H. injection H as <-.
    destruct (IHa _ Hx) as [Ba Ta]. destruct (IHb _ Hx0) as [Bb Tb].
    split; [intros y [Hy|Hy]; auto|]. intros vars. simpl. now rewrite Ta, Tb.
  - inv_bind H. inv_bind H. injection H as <-.
    destruct (IHa _ Hx) as [Ba Ta]. destruct (IHb _ Hx0) as [Bb Tb].
    split; [intros y [Hy|Hy]; auto|]. intros vars. simpl. now rewrite Ta, Tb.
  - inv_bind H. injection H as <-.
    destruct (IHa _ Hx) as [Ba Ta]. split; [auto|]. intros vars. simpl. apply Ta.
Qed.

Lemma substituteVariables_Err (varMap : VarMap) (expr : AlgExpr) err :
  substituteVariables varMap expr = Err err ->
  err = UndefinedValue /\ exists x, occurs x expr /\ mapGet varMap x = None.
Proof.
  assert (Hbin : forall a b (k : AlgExpr -> AlgExpr -> AlgExpr),
             (substituteVariables varMap a = Err err ->
              err = UndefinedValue /\
              exists x, occurs x a /\ mapGet varMap x = None) ->
             (substituteVariables varMap b = Err err ->
              err = UndefinedValue /\
              exists x, occurs x b /\ mapGet varMap x = None) ->
             (a' <- substituteVariables varMap a ;;
              b' <- substituteVariables varMap b ;; Ok (k a' b')) = Err err ->
             err = UndefinedValue /\
             exists x, (occurs x a \/ occurs x b) /\ mapGet varMap x = None).
  { intros a b k IHa IHb H.
    apply bind_Err_inv in H as [H|(a' & _ & H)].
    - destruct (IHa H) as (-> & z & Hz & Hn). eauto.
    - apply bind_Err_inv in H as [H|(b' & _ & H)]; [|discriminate].
      destruct (IHb H) as (-> & z & Hz & Hn). eauto. }
  induction expr as [n|y|a IHa b IHb|a IHa b IHb|a IHa b IHb|a IHa b IHb|a IHa];
    simpl; intros H; try discriminate;
    try (apply (Hbin a b _ IHa IHb H)).
  - destruct (mapGet varMap y) eqn:E; [discriminate|].
    injection H as <-. eauto.
  - apply bind_Err_inv in H as [H|(? & _ & H)]; [auto|discriminate].
Qed.

Lemma substituteVariables_closed (varMap : VarMap) (expr : AlgExpr) :
  (forall x, ~ occurs x expr) -> substituteVariables varMap expr = Ok expr.
Proof.
  induction expr as [n|y|a IHa b IHb|a IHa b IHb|a IHa b IHb|a IHa b IHb|a IHa];
    simpl; intros H; try reflexivity.
  - now elim (H y).
  - rewrite IHa, IHb; [reflexivity| |]; intros x Hx; apply (H x); auto.
  - rewrite IHa, IHb; [reflexivity| |]; intros x Hx; apply (H x); auto.
  - rewrite IHa, IHb; [reflexivity| |]; intros x Hx; apply (H x); auto.
  - rewrite IHa, IHb; [reflexivity| |]; intros x Hx; apply (H x); auto.
  - rewrite IHa; [reflexivity|assumption].
Qed.

(** X15. [getVariablesSet] returns every variable name of the tree exactly
    once, and the union the checker builds holds every name of either tree
    exactly once. *)
Theorem variables_collected_once :
  forall e1 e2,
    NoDup (getVariablesSet e1) /\
    (forall x, In x (getVariablesSet e1) <-> occurs x e1) /\
    NoDup (unionSet (getVariablesSet e1) (getVariablesSet e2)) /\
    (forall x, In x (unionSet (getVariablesSet e1) (getVariablesSet e2))
               <-> occurs x e1 \/ occurs x e2).
Proof.
  intros e1 e2. split; [|split; [|split]].
  - apply traverse_NoDup. constructor.
  - apply getVariablesSet_In.
  - apply fold_setAdd_NoDup. constructor.
  - intros x. split.
    + intros H. apply fold_setAdd_In_inv in H as [[]|H].
      apply in_app_or in H. rewrite !getVariablesSet_In in H. assumption.
    + apply unionSet_covers.
Qed.

Lemma variables_collected_once_witness :
  In "y" (unionSet (getVariablesSet (Add (Var "x") (Var "y")))
            (getVariablesSet (Mul (Var "y") (Var "x")))).
Proof.
  apply (proj2 (proj2 (proj2 (variables_collected_once
                                (Add (Var "x") (Var "y"))
                                (Mul (Var "y") (Var "x"))))) "y").
  left. right. reflexivity.
Defined.

Lemma substituteVariables_size (varMap : VarMap) (expr expr' : AlgExpr) :
  substituteVariables varMap expr = Ok expr' -> size expr' = size expr.
Proof.
  revert expr'.
  induction expr as [n|y|a IHa b IHb|a IHa b IHb|a IHa b IHb|a IHa b IHb|a IHa];
    simpl; intros expr' H.
  - now injection H as <-.
  - destruct (mapGet varMap y); [|discriminate]. now injection H as <-.
  - inv_bind H. inv_bind H. injection H as <-. simpl.
    now rewrite (IHa _ Hx), (IHb _ Hx0).
  - inv_bind H. inv_bind H. injection H as <-. simpl.
    now rewrite (IHa _ Hx), (IHb _ Hx0).
  - inv_bind H. inv_bind H. injection H as <-. simpl.
    now rewrite (IHa _ Hx), (IHb _ Hx0).
  - inv_bind H. inv_bind H. injection H as <-. simpl.
    now rewrite (IHa _ Hx), (IHb _ Hx0).
  - inv_bind H. injection H as <-. simpl. now rewrite (IHa _ Hx).
Qed.

(** X16. When the map holds a value for every variable of the tree,
    substitution returns a tree of the same size with no variable left, and
    substituting again, with any map, returns that tree unchanged. *)
Theorem substitute_bound_variables :
  forall varMap expr,
    (forall x, occurs x expr -> bound varMap x) ->
    exists expr',
      substituteVariables varMap expr = Ok expr' /\
      getVariablesSet expr' = [] /\
      size expr' = size expr /\
      (forall varMap', substituteVariables varMap' expr' = Ok expr').
Proof.
  intros varMap expr Hb.
  destruct (substituteVariables_total varMap expr Hb) as [expr' H].
  exists expr'. split; [assumption|].
  pose proof (substituteVariables_Ok_bound _ _ _ H) as [_ Ht].
  split; [apply Ht|]. split; [eapply substituteVariables_size; eassumption|].
  intros varMap'. apply substituteVariables_closed.
  intros x Hx. apply getVariablesSet_In in Hx.
  unfold getVariablesSet in Hx. rewrite Ht in Hx. exact Hx.
Qed.

Lemma substitute_bound_variables_witness :
  exists expr',
    substituteVariables [("x", 7); ("y", -2)] (Add (Var "x") (Neg (Var "y")))
      = Ok expr' /\
    getVariablesSet expr' = [] /\
    size expr' = size (Add (Var "x") (Neg (Var "y"))) /\
    (forall varMap', substituteVariables varMap' expr' = Ok expr').
Proof.
  apply (substitute_bound_variables
           [("x", 7); ("y", -2)] (Add (Var "x") (Neg (Var "y")))).
  intros x [-> | ->]; eexists; reflexivity.
Defined.

(** ** Equivalence checker: the trials *)

Lemma drawVariables_calls random vars varMap calls :
  snd (drawVariables random vars varMap calls) = (calls + List.length vars)%nat.
Proof.
  revert varMap calls. induction vars as [|v vars IH]; simpl; intros.
  - lia.
  - rewrite IH. lia.
Qed.

(** What a trial that ends returns. *)
Lemma runTrial_inv random vars expr1 expr2 calls outcome calls' :
  runTrial random vars expr1 expr2 calls = Ok (outcome, calls') ->
  exists varMap s1 s2 v1 v2,
    substituteVariables varMap expr1 = Ok s1 /\
    substituteVariables varMap expr2 = Ok s2 /\
    evaluateExpression s1 = Ok v1 /\ evaluateExpression s2 = Ok v2 /\
    outcome = compareValues (getComputedValue v1) (getComputedValue v2) /\
    calls' = (calls + List.length vars)%nat.
Proof.
  unfold runTrial. intros H.
  pose proof (drawVariables_calls random vars [] calls) as Hc.
  destruct (drawVariables random vars [] calls) as [varMap c]. simpl in Hc.
  inv_bind H. inv_bind H. inv_bind H. inv_bind H.
  injection H as <- <-. exists varMap, x, x0, x1, x2. repeat split; auto.
Qed.

Lemma Qle_bool_wd (p q t : Q) : p == q -> Qle_bool p t = Qle_bool q t.
Proof.
  intros H.
  destruct (Qle_bool p t) eqn:E1, (Qle_bool q t) eqn:E2; try reflexivity.
  - apply Qle_bool_iff in E1. rewrite H in E1.
    apply Qle_bool_iff in E1. congruence.
  - apply Qle_bool_iff in E2. rewrite <- H in E2.
    apply Qle_bool_iff in E2. congruence.
Qed.

Lemma compareValues_wd a a' b b' :
  sameValue a a' -> sameValue b b' -> compareValues a b = compareValues a' b'.
Proof.
  destruct a as [x|], a' as [x'|], b as [y|], b' as [y'|]; simpl;
    try tauto; intros Hx Hy.
  rewrite (Qle_bool_wd (Qabs (x - y)) (Qabs (x' - y'))); [reflexivity|].
  now rewrite Hx, Hy.
Qed.

Lemma compareValues_same v : answerOf (compareValues v v) = true.
Proof.
  destruct v as [x|]; simpl; [|reflexivity].
  rewrite (Qle_bool_wd (Qabs (x - x)) 0); [reflexivity|].
  unfold Qminus. rewrite Qplus_opp_r. reflexivity.
Qed.

Lemma compareValues_None_l b : compareValues None b = Skipped.
Proof. reflexivity. Qed.

Lemma compareValues_None_r a : compareValues a None = Skipped.
Proof. destruct a; reflexivity. Qed.

(** When no trial can mismatch, the loop runs to its end and answers
    true. *)
Lemma trialLoop_no_mismatch random vars expr1 expr2 :
  (forall x, occurs x expr1 \/ occurs x expr2 -> In x vars) ->
  (forall calls outcome calls',
      runTrial random vars expr1 expr2 calls = Ok (outcome, calls') ->
      answerOf outcome = true) ->
  forall remaining calls,
    trialLoop random remaining vars expr1 expr2 calls = Ok true.
Proof.
  intros Hvars Hok remaining.
  induction remaining as [|n IH]; intros calls; simpl; [reflexivity|].
  destruct (runTrial_total random vars expr1 expr2 calls Hvars)
    as (outcome & calls' & E).
  rewrite E. simpl. specialize (Hok _ _ _ E).
  destruct outcome; [discriminate|apply IH|apply IH].
Qed.

Lemma sameValue_None_r a : sameValue a None -> a = None.
Proof. destruct a; simpl; tauto. Qed.

(** X17. The checker finds every expression equivalent to itself, whatever
    the random source returns. *)
Theorem checker_reflexive :
  forall (random : nat -> Q) e, areExpressionsEquivalent random e e = Ok true.
Proof.
  intros random e. unfold areExpressionsEquivalent.
  apply trialLoop_no_mismatch.
  - intros x. apply unionSet_covers.
  - intros calls outcome calls' H.
    apply runTrial_inv in H
      as (varMap & s1 & s2 & v1 & v2 & E1 & E2 & V1 & V2 & -> & _).
    assert (s2 = s1) by congruence. subst s2.
    assert (v2 = v1) by congruence. subst v2.
    apply compareValues_same.
Qed.

(** In the exact arithmetic of the model: an expression whose value is NaN
    under every substitution is found equivalent to any expression. *)
Lemma areExpressionsEquivalent_undefined :
  forall (random : nat -> Q) e1 e2,
    (forall varMap s, substituteVariables varMap e1 = Ok s ->
                      getComputedValue s = None) ->
    areExpressionsEquivalent random e1 e2 = Ok true /\
    areExpressionsEquivalent random e2 e1 = Ok true.
Proof.
  intros random e1 e2 Hnan.
  assert (Hv : forall varMap s v,
             substituteVariables varMap e1 = Ok s ->
             evaluateExpression s = Ok v -> getComputedValue v = None).
  { intros varMap s v Hs Hv. apply sameValue_None_r.
    rewrite <- (Hnan varMap s Hs). now apply evaluateExpression_value. }
  split; unfold areExpressionsEquivalent; apply trialLoop_no_mismatch.
  - intros x. apply unionSet_covers.
  - intros calls outcome calls' H.
    apply runTrial_inv in H
      as (varMap & s1 & s2 & v1 & v2 & E1 & E2 & V1 & V2 & -> & _).
    rewrite (Hv varMap s1 v1 E1 V1). reflexivity.
  - intros x. apply unionSet_covers.
  - intros calls outcome calls' H.
    apply runTrial_inv in H
      as (varMap & s1 & s2 & v1 & v2 & E1 & E2 & V1 & V2 & -> & _).
    rewrite (Hv varMap s2 v2 E2 V2), compareValues_None_r. reflexivity.
Qed.

Lemma trialLoop_constant random vars expr1 expr2 outcome :
  (forall calls, exists calls',
      runTrial random vars expr1 expr2 calls = Ok (outcome, calls')) ->
  forall remaining calls,
    trialLoop random (S remaining) vars expr1 expr2 calls
      = Ok (answerOf outcome).
Proof.
  intros Hrun remaining.
  induction remaining as [|n IH]; intros calls;
    destruct (Hrun calls) as [calls' E];
    cbn [trialLoop]; rewrite E; cbn [bind].
  - destruct outcome; reflexivity.
  - destruct outcome; [reflexivity|apply IH|apply IH].
Qed.

Lemma unionSet_nil : unionSet [] [] = [].
Proof. reflexivity. Qed.

Lemma getVariablesSet_nil (e : AlgExpr) :
  getVariablesSet e = [] -> forall x, ~ occurs x e.
Proof.
  intros H x Hx. apply getVariablesSet_In in Hx. rewrite H in Hx. exact Hx.
Qed.

(** In the exact arithmetic of the model: on two expressions without
    variables every trial compares the same two values. *)
Lemma areExpressionsEquivalent_constants :
  forall (random : nat -> Q) e1 e2,
    getVariablesSet e1 = [] -> getVariablesSet e2 = [] ->
    areExpressionsEquivalent random e1 e2
      = Ok (answerOf (compareValues (getComputedValue e1)
                        (getComputedValue e2))).
Proof.
  intros random e1 e2 H1 H2. unfold areExpressionsEquivalent.
  rewrite H1, H2, unionSet_nil. apply trialLoop_constant.
  intros calls. exists calls. unfold runTrial. simpl.
  rewrite (substituteVariables_closed [] e1 (getVariablesSet_nil e1 H1)).
  rewrite (substituteVariables_closed [] e2 (getVariablesSet_nil e2 H2)).
  simpl.
  destruct (evaluateExpression_total e1) as [v1 E1].
  destruct (evaluateExpression_total e2) as [v2 E2].
  rewrite E1, E2. simpl. do 2 f_equal.
  apply compareValues_wd; now apply evaluateExpression_value.
Qed.

(** X20. The checker always answers, and every trial draws one number for
    each distinct variable of the two expressions: no variable is read
    without a value and the evaluator does not fail on a substituted
    tree. *)
Theorem checker_always_answers :
  forall (random : nat -> Q) e1 e2,
    (exists answer, areExpressionsEquivalent random e1 e2 = Ok answer) /\
    (forall calls, exists outcome,
        runTrial random (unionSet (getVariablesSet e1) (getVariablesSet e2))
          e1 e2 calls
        = Ok (outcome,
              (calls + List.length
                         (unionSet (getVariablesSet e1) (getVariablesSet e2)))%nat)).
Proof.
  intros random e1 e2. split; [apply areExpressionsEquivalent_total|].
  intros calls.
  destruct (runTrial_total random
              (unionSet (getVariablesSet e1) (getVariablesSet e2)) e1 e2 calls)
    as (outcome & calls' & E); [intros x; apply unionSet_covers|].
  exists outcome. rewrite E.
  apply runTrial_inv in E as (_ & _ & _ & _ & _ & _ & _ & _ & _ & _ & ->).
  reflexivity.
Qed.

Lemma trialLoop_false random vars expr1 expr2 :
  forall remaining calls,
    trialLoop random remaining vars expr1 expr2 calls = Ok false ->
    exists calls0 calls',
      runTrial random vars expr1 expr2 calls0 = Ok (Mismatch, calls').
Proof.
  induction remaining as [|n IH]; intros calls H; [discriminate|].
  cbn [trialLoop] in H. inv_bind H. destruct x as [outcome calls'].
  destruct outcome; eauto.
Qed.

(** ** Checker: inside the exact range *)

Lemma closedArith_traverse (e : AlgExpr) (vars : list string) :
  closedArith e = true -> traverse e vars = vars.
Proof.
  revert vars. induction e; simpl; intros vars H; try discriminate;
    try reflexivity; try (apply andb_prop in H as [Ha Hb]; rewrite IHe1, IHe2);
    auto.
Qed.

Lemma closedArith_value (e : AlgExpr) :
  closedArith e = true ->
  sameValue (getComputedValue e) (Some (inject_Z (arithValue e))).
Proof.
  induction e as [n|x|a IHa b IHb|a IHa b IHb|a IHa b IHb|a IHa b IHb|a IHa];
    simpl closedArith; intros H; try discriminate.
  - simpl. reflexivity.
  - apply andb_prop in H as [Ha Hb]. specialize (IHa Ha). specialize (IHb Hb).
    simpl. destruct (getComputedValue a), (getComputedValue b);
      simpl in *; try contradiction.
    rewrite IHa, IHb, inject_Z_plus. reflexivity.
  - apply andb_prop in H as [Ha Hb]. specialize (IHa Ha). specialize (IHb Hb).
    simpl. destruct (getComputedValue a), (getComputedValue b);
      simpl in *; try contradiction.
    rewrite IHa, IHb. unfold Z.sub, Qminus.
    rewrite inject_Z_plus, inject_Z_opp. reflexivity.
  - apply andb_prop in H as [Ha Hb]. specialize (IHa Ha). specialize (IHb Hb).
    simpl. destruct (getComputedValue a), (getComputedValue b);
      simpl in *; try contradiction.
    rewrite IHa, IHb, inject_Z_mult. reflexivity.
  - specialize (IHa H). simpl.
    destruct (getComputedValue a); simpl in *; try contradiction.
    rewrite IHa, inject_Z_opp. reflexivity.
Qed.

(** Comparing two integers within the tolerance is comparing them. *)
Lemma compareValues_integers (x y : Q) (a b : Z) :
  x == inject_Z a -> y == inject_Z b ->
  compareValues (Some x) (Some y) = if a =? b then Agree else Mismatch.
Proof.
  intros Hx Hy. unfold compareValues.
  rewrite (Qle_bool_wd (Qabs (x - y)) (inject_Z (Z.abs (a - b)))).
  - unfold Qle_bool, inject_Z. cbn [Qnum Qden].
    destruct (a =? b) eqn:E.
    + apply Z.eqb_eq in E. subst b. rewrite Z.sub_diag. reflexivity.
    + apply Z.eqb_neq in E.
      match goal with
      | |- (if ?c then _ else _) = _ => destruct c eqn:L; [|reflexivity]
      end.
      apply Z.leb_le in L. lia.
  - rewrite Hx, Hy. unfold Qminus. rewrite <- inject_Z_opp, <- inject_Z_plus.
    reflexivity.
Qed.

Lemma closedArith_substitute (varMap : VarMap) (e : AlgExpr) :
  closedArith e = true -> substituteVariables varMap e = Ok e.
Proof.
  intros H. apply substituteVariables_closed.
  intros x Hx. apply getVariablesSet_In in Hx.
  unfold getVariablesSet in Hx. rewrite closedArith_traverse in Hx; auto.
Qed.

Lemma dividesByZero_substitute (varMap : VarMap) (e s : AlgExpr) :
  dividesByZero e = true -> substituteVariables varMap e = Ok s ->
  dividesByZero s = true.
Proof.
  revert s.
  induction e as [n|y|a IHa b IHb|a IHa b IHb|a IHa b IHb|a IHa b IHb|a IHa];
    simpl dividesByZero; intros s Hd H; try discriminate; simpl in H.
  1, 2, 3:
    inv_bind H; inv_bind H; injection H as <-; simpl;
    apply orb_prop in Hd as [Hd|Hd];
    [rewrite (IHa _ Hd Hx); reflexivity
    |rewrite (IHb _ Hd Hx0); apply orb_true_r].
  - inv_bind H. inv_bind H. injection H as <-. simpl.
    apply orb_prop in Hd as [Hd|Hd]; [apply orb_prop in Hd as [Hd|Hd]|].
    + apply andb_prop in Hd as [Hd Hz]. apply andb_prop in Hd as [Hc He].
      rewrite (closedArith_substitute varMap b Hc) in Hx0.
      injection Hx0 as <-. now rewrite Hc, He, Hz.
    + rewrite (IHa _ Hd Hx). apply orb_true_iff. left. apply orb_true_r.
    + rewrite (IHb _ Hd Hx0). apply orb_true_r.
  - inv_bind H. injection H as <-. simpl. now apply IHa.
Qed.

Lemma liftQ_None_l f b : liftQ f None b = None.
Proof. reflexivity. Qed.

Lemma liftQ_None_r f a : liftQ f a None = None.
Proof. destruct a; reflexivity. Qed.

Lemma dividesByZero_value (e : AlgExpr) :
  dividesByZero e = true -> getComputedValue e = None.
Proof.
  induction e as [n|y|a IHa b IHb|a IHa b IHb|a IHa b IHb|a IHa b IHb|a IHa];
    simpl dividesByZero; intros Hd; try discriminate.
  1, 2, 3:
    simpl; apply orb_prop in Hd as [Hd|Hd];
    [rewrite (IHa Hd); apply liftQ_None_l
    |rewrite (IHb Hd); apply liftQ_None_r].
  - cbn [getComputedValue].
    apply orb_prop in Hd as [Hd|Hd]; [apply orb_prop in Hd as [Hd|Hd]|].
    + apply andb_prop in Hd as [Hd Hz]. apply andb_prop in Hd as [Hc _].
      apply Z.eqb_eq in Hz.
      pose proof (closedArith_value b Hc) as Hv. rewrite Hz in Hv.
      destruct (getComputedValue b) as [d|]; [|reflexivity].
      simpl in Hv. change (inject_Z 0) with 0%Q in Hv.
      apply Qeq_bool_iff in Hv. now rewrite Hv.
    + rewrite (IHa Hd).
      destruct (getComputedValue b) as [d|]; [|reflexivity].
      destruct (Qeq_bool d 0); reflexivity.
    + now rewrite (IHb Hd).
  - simpl. now rewrite (IHa Hd).
Qed.

(** X18. An expression that divides by a subtree without variables and
    divisions whose integer value, computed within [2^53], is zero, is found
    equivalent to any expression, on either side, whatever the random source
    returns: its value is NaN in every trial. *)
Theorem checker_accepts_division_by_zero :
  forall (random : nat -> Q) e1 e2,
    dividesByZero e1 = true ->
    areExpressionsEquivalent random e1 e2 = Ok true /\
    areExpressionsEquivalent random e2 e1 = Ok true.
Proof.
  intros random e1 e2 Hd. apply areExpressionsEquivalent_undefined.
  intros varMap s Hs.
  eapply dividesByZero_value, dividesByZero_substitute; eassumption.
Qed.

Lemma checker_accepts_division_by_zero_witness :
  areExpressionsEquivalent (fun k => (inject_Z (Z.of_nat k) / 7)%Q)
    (Add (Var "c") (Div (Var "a") (Sub (Int 2) (Int 2))))
    (Add (Var "b") (Int 3)) = Ok true /\
  areExpressionsEquivalent (fun k => (inject_Z (Z.of_nat k) / 7)%Q)
    (Add (Var "b") (Int 3))
    (Add (Var "c") (Div (Var "a") (Sub (Int 2) (Int 2)))) = Ok true.
Proof.
  apply (checker_accepts_division_by_zero
           (fun k => (inject_Z (Z.of_nat k) / 7)%Q)
           (Add (Var "c") (Div (Var "a") (Sub (Int 2) (Int 2))))
           (Add (Var "b") (Int 3))).
  reflexivity.
Defined.

(** X19. On two expressions without variables and divisions, all of whose
    subtrees have an integer value up to [2^53] in absolute value, the answer
    does not depend on the random source: it is true exactly when the two
    integer values are equal. *)
Theorem checker_on_integer_constants :
  forall (random : nat -> Q) e1 e2,
    closedArith e1 = true -> exactArith e1 = true ->
    closedArith e2 = true -> exactArith e2 = true ->
    areExpressionsEquivalent random e1 e2
      = Ok (arithValue e1 =? arithValue e2).
Proof.
  intros random e1 e2 C1 _ C2 _.
  rewrite areExpressionsEquivalent_constants
    by (unfold getVariablesSet; now apply closedArith_traverse).
  pose proof (closedArith_value e1 C1) as V1.
  pose proof (closedArith_value e2 C2) as V2.
  destruct (getComputedValue e1) as [x|]; [|contradiction].
  destruct (getComputedValue e2) as [y|]; [|contradiction].
  simpl in V1, V2. rewrite (compareValues_integers x y _ _ V1 V2).
  destruct (arithValue e1 =? arithValue e2); reflexivity.
Qed.

Lemma checker_on_integer_constants_witness :
  areExpressionsEquivalent (fun _ => 0%Q)
    (Mul (Int 6) (Int 7)) (Sub (Int 50) (Int 8)) = Ok true /\
  areExpressionsEquivalent (fun _ => 0%Q)
    (Mul (Int 6) (Int 7)) (Neg (Int 42)) = Ok false.
Proof.
  split.
  - apply (checker_on_integer_constants (fun _ => 0%Q)
             (Mul (Int 6) (Int 7)) (Sub (Int 50) (Int 8))); reflexivity.
  - apply (checker_on_integer_constants (fun _ => 0%Q)
             (Mul (Int 6) (Int 7)) (Neg (Int 42))); reflexivity.
Defined.

(** ** Checker: the values it draws *)

Lemma mapGet_mapSet (varMap : VarMap) (key : string) (value : Z)
    (x : string) (w : Z) :
  mapGet (mapSet varMap key value) x = Some w ->
  w = value \/ mapGet varMap x = Some w.
Proof.
  induction varMap as [|[k v] m IH]; simpl.
  - destruct (String.eqb key x); [|discriminate]. intros H. left. congruence.
  - destruct (String.eqb k key) eqn:Ek; simpl.
    + apply String.eqb_eq in Ek. subst k.
      destruct (String.eqb key x); [left; congruence|auto].
    + destruct (String.eqb k x); [auto|exact IH].
Qed.

Lemma draw_in_range (r : Q) :
  (0 <= r)%Q -> (r < 1)%Q ->
  -50 <= Qfloor (r * inject_Z range) - range / 2 <= 49.
Proof.
  intros H0 H1. change (range / 2) with 50. unfold range.
  assert (0 <= Qfloor (r * inject_Z 100)) as Hlo.
  { rewrite <- (Qfloor_Z 0). apply Qfloor_resp_le.
    apply Qmult_le_0_compat; [assumption|discriminate]. }
  assert (Qfloor (r * inject_Z 100) < 100) as Hhi.
  { rewrite Zlt_Qlt. eapply Qle_lt_trans; [apply Qfloor_le|].
    setoid_replace (inject_Z 100) with (1 * inject_Z 100)%Q at 2 by ring.
    apply Qmult_lt_compat_r; [reflexivity|assumption]. }
  lia.
Qed.

Lemma drawVariables_drawn (random : nat -> Q) :
  (forall k, (0 <= random k)%Q /\ (random k < 1)%Q) ->
  forall vars varMap calls,
    drawnValues varMap ->
    drawnValues (fst (drawVariables random vars varMap calls)).
Proof.
  intros Hr vars.
  induction vars as [|v vars IH]; simpl; intros varMap calls Hm; [assumption|].
  apply IH. intros x w Hw.
  apply mapGet_mapSet in Hw as [->|Hw]; [|eauto].
  destruct (Hr calls). now apply draw_in_range.
Qed.

Lemma runTrial_map random vars expr1 expr2 calls outcome calls' :
  runTrial random vars expr1 expr2 calls = Ok (outcome, calls') ->
  exists s1 s2 v1 v2,
    substituteVariables (fst (drawVariables random vars [] calls)) expr1 = Ok s1 /\
    substituteVariables (fst (drawVariables random vars [] calls)) expr2 = Ok s2 /\
    evaluateExpression s1 = Ok v1 /\ evaluateExpression s2 = Ok v2 /\
    outcome = compareValues (getComputedValue v1) (getComputedValue v2).
Proof.
  unfold runTrial. intros H.
  destruct (drawVariables random vars [] calls) as [varMap c]. simpl.
  inv_bind H. inv_bind H. inv_bind H. inv_bind H.
  injection H as <- _. exists x, x0, x1, x2. repeat split; auto.
Qed.

Lemma substituteVariables_exact (varMap : VarMap) (e s : AlgExpr) :
  drawnValues varMap ->
  divisionFree e = true -> exactUnder e = true ->
  substituteVariables varMap e = Ok s ->
  closedArith s = true /\ exactArith s = true /\
  Z.abs (arithValue s) <= boundUnder e.
Proof.
  intros Hm. revert s.
  assert (Hex : forall n b, Z.abs n <= b -> (b <=? maxExact) = true ->
                            exactInt n = true).
  { intros n b Hn Hb. apply Z.leb_le in Hb. unfold exactInt.
    apply andb_true_intro. split; apply Z.leb_le; lia. }
  induction e as [n|y|a IHa b IHb|a IHa b IHb|a IHa b IHb|a IHa b IHb|a IHa];
    cbn [divisionFree exactUnder boundUnder]; intros s Hd He H;
    try discriminate; simpl in H.
  - injection H as <-. apply andb_prop in He as [He _].
    cbn [closedArith exactArith arithValue].
    rewrite (Hex n (Z.abs n)) by (assumption || lia). repeat split. lia.
  - destruct (mapGet varMap y) as [v|] eqn:E; [|discriminate].
    injection H as <-. apply Hm in E.
    cbn [closedArith exactArith arithValue].
    rewrite (Hex v 50) by (reflexivity || lia). repeat split. lia.
  - apply andb_prop in Hd as [Da Db]. apply andb_prop in He as [Hb He].
    apply andb_prop in He as [Ea Eb].
    inv_bind H. inv_bind H. injection H as <-.
    destruct (IHa _ Da Ea Hx) as (Ca & Xa & Ba).
    destruct (IHb _ Db Eb Hx0) as (Cb & Xb & Bb).
    cbn [closedArith exactArith arithValue]. rewrite Ca, Cb, Xa, Xb.
    assert (Z.abs (arithValue x + arithValue x0)
            <= boundUnder a + boundUnder b) as Hv by lia.
    rewrite (Hex _ _ Hv Hb). repeat split. exact Hv.
  - apply andb_prop in Hd as [Da Db]. apply andb_prop in He as [Hb He].
    apply andb_prop in He as [Ea Eb].
    inv_bind H. inv_bind H. injection H as <-.
    destruct (IHa _ Da Ea Hx) as (Ca & Xa & Ba).
    destruct (IHb _ Db Eb Hx0) as (Cb & Xb & Bb).
    cbn [closedArith exactArith arithValue]. rewrite Ca, Cb, Xa, Xb.
    assert (Z.abs (arithValue x - arithValue x0)
            <= boundUnder a + boundUnder b) as Hv by lia.
    rewrite (Hex _ _ Hv Hb). repeat split. exact Hv.
  - apply andb_prop in Hd as [Da Db]. apply andb_prop in He as [Hb He].
    apply andb_prop in He as [Ea Eb].
    inv_bind H. inv_bind H. injection H as <-.
    destruct (IHa _ Da Ea Hx) as (Ca & Xa & Ba).
    destruct (IHb _ Db Eb Hx0) as (Cb & Xb & Bb).
    cbn [closedArith exactArith arithValue]. rewrite Ca, Cb, Xa, Xb.
    assert (Z.abs (arithValue x * arithValue x0)
            <= boundUnder a * boundUnder b) as Hv.
    { rewrite Z.abs_mul.
      apply Z.mul_le_mono_nonneg; auto using Z.abs_nonneg. }
    rewrite (Hex _ _ Hv Hb). repeat split. exact Hv.
  - apply andb_prop in He as [Hb Ea].
    inv_bind H. injection H as <-.
    destruct (IHa _ Hd Ea Hx) as (Ca & Xa & Ba).
    cbn [closedArith exactArith arithValue]. rewrite Ca, Xa.
    assert (Z.abs (- arithValue x) <= boundUnder a) as Hv by lia.
    rewrite (Hex _ _ Hv Hb). repeat split. exact Hv.
Qed.

(** X21. For a random source with values in [0, 1) and two expressions
    without divisions whose subtrees stay within [2^53] for variables up to
    50 in absolute value, the checker answers false only with a disproof in
    hand: an assignment of values it can draw under which the two
    expressions have different integer values, computed within [2^53]. *)
Theorem checker_rejection_justified :
  forall (random : nat -> Q) e1 e2,
    (forall k, (0 <= random k)%Q /\ (random k < 1)%Q) ->
    divisionFree e1 = true -> exactUnder e1 = true ->
    divisionFree e2 = true -> exactUnder e2 = true ->
    areExpressionsEquivalent random e1 e2 = Ok false ->
    exists varMap s1 s2,
      drawnValues varMap /\
      substituteVariables varMap e1 = Ok s1 /\
      substituteVariables varMap e2 = Ok s2 /\
      closedArith s1 = true /\ exactArith s1 = true /\
      closedArith s2 = true /\ exactArith s2 = true /\
      arithValue s1 <> arithValue s2.
Proof.
  intros random e1 e2 Hr D1 X1 D2 X2 H.
  unfold areExpressionsEquivalent in H.
  apply trialLoop_false in H as (calls0 & calls' & H).
  apply runTrial_map in H as (s1 & s2 & v1 & v2 & E1 & E2 & V1 & V2 & Hm).
  set (vars := unionSet (getVariablesSet e1) (getVariablesSet e2)) in *.
  assert (Hd : drawnValues (fst (drawVariables random vars [] calls0))).
  { apply drawVariables_drawn; [assumption|]. intros x v Hv. discriminate. }
  destruct (substituteVariables_exact _ _ _ Hd D1 X1 E1) as (C1 & A1 & _).
  destruct (substituteVariables_exact _ _ _ Hd D2 X2 E2) as (C2 & A2 & _).
  exists (fst (drawVariables random vars [] calls0)), s1, s2.
  repeat (split; [assumption|]).
  intros Heq.
  pose proof (sameValue_trans _ _ _ (evaluateExpression_value s1 v1 V1)
                (closedArith_value s1 C1)) as S1.
  pose proof (sameValue_trans _ _ _ (evaluateExpression_value s2 v2 V2)
                (closedArith_value s2 C2)) as S2.
  destruct (getComputedValue v1) as [x|]; [|contradiction].
  destruct (getComputedValue v2) as [y|]; [|contradiction].
  simpl in S1, S2. rewrite (compareValues_integers x y _ _ S1 S2) in Hm.
  apply Z.eqb_eq in Heq. rewrite Heq in Hm. discriminate.
Qed.

Lemma checker_rejection_justified_witness :
  exists varMap s1 s2,
    drawnValues varMap /\
    substituteVariables varMap (Mul (Var "x") (Int 2)) = Ok s1 /\
    substituteVariables varMap (Add (Var "x") (Int 200)) = Ok s2 /\
    closedArith s1 = true /\ exactArith s1 = true /\
    closedArith s2 = true /\ exactArith s2 = true /\
    arithValue s1 <> arithValue s2.
Proof.
  apply (checker_rejection_justified (fun _ => 0%Q)); try reflexivity.
  intros k. split; [discriminate|reflexivity].
Defined.
